(** * pact-go: the plugin mock provider and the plugin socket server

    A shallow embedding of
      - [examples/v3/plugin_socket.go]: the session store, the TCP message
        matcher and the mismatch report of the example plugin;
      - package [native]: the Go side of the cgo calls into the mock engine;
      - package [v3]: [PluginProvider], its configuration and [ExecuteTest].

    Go maps are [gmap]s, slices are lists, [int] is [Z], a [nil] error is
    [None].  What lies outside the process (the native engine, the
    operating system, the consumer's test function) is a record of
    functions giving the answer to each call; the calls made are logged
    in the order made. *)

From Stdlib Require Import ZArith String Ascii List.
From stdpp Require Import base option list gmap strings fin_maps sets pretty.

Set Warnings "-clear-no-such-hyp".
Local Open Scope Z_scope.
Local Open Scope string_scope.

(** ** examples/v3/plugin_socket.go *)
Module PluginSocket.

(** [const adminPort = 4444]: the port the admin API is served on. *)
Definition adminPort : Z := 4444.

(** [type interaction struct] *)
Record interaction := mk_interaction {
  Message : string;   (* consumer request *)
  Response : string;  (* expected response *)
  Delimeter : string  (* how to determine message boundary *)
}.

#[global] Instance interaction_eq_dec : EqDecision interaction.
Proof. solve_decision. Defined.

(** [type session struct].  [interactions] is the Go type
    [map[string]interaction]; a [nil] map reads like the empty one. *)
Record session := mk_session {
  id : string;
  interactions : gmap string interaction;
  matchedInteractions : list string;
  port : Z
}.

(** [type mismatchDetail struct] *)
Record mismatchDetail := mk_mismatchDetail {
  Actual : string;
  Expected : string;
  Mismatch : string
}.

#[global] Instance mismatchDetail_eq_dec : EqDecision mismatchDetail.
Proof. solve_decision. Defined.

(** [type mismatched struct] *)
Record mismatched := mk_mismatched { Mismatches : list mismatchDetail }.

(** [s.matchedInteractions = append(s.matchedInteractions, message)] *)
Definition record_match (message : string) (s : session) : session :=
  {| id := id s;
     interactions := interactions s;
     matchedInteractions := matchedInteractions s ++ [message];
     port := port s |}.

(** [s.interactions = m] *)
Definition set_interactions (m : gmap string interaction) (s : session) : session :=
  {| id := id s;
     interactions := m;
     matchedInteractions := matchedInteractions s;
     port := port s |}.

(** [func matchRequest(message string, s *session) string]: the returned
    string and the session as the call leaves it. *)
Definition matchRequest (message : string) (s : session) : string * session :=
  match interactions s !! message with
  | Some response => (Response response, record_match message s)
  | None => ("", s)
  end.

(** What [conn.Read(buf)] gave: the bytes [buf[:l]] and the error. *)
Inductive read_error := NoError | EOF | OtherError (msg : string).

(** [func handleRequest(conn net.Conn, s *session)]: the bytes written back
    on the connection and the session afterwards.  [TrimSpace] is
    [strings.TrimSpace]. *)
Definition handleRequest (TrimSpace : string → string)
    (data : string) (err : read_error) (s : session) : string * session :=
  match err with
  | OtherError _ => ("", s)
  | _ => matchRequest (TrimSpace data) s
  end.

(** The branch [handleRequest] takes when [err == nil || err == io.EOF]. *)
Definition read_ok (err : read_error) : Prop :=
  match err with OtherError _ => False | _ => True end.

(** [fmt.Sprintf("expected message '%s', but got none", m)] *)
Definition mismatch_text (m : string) : string :=
  "expected message '" +:+ m +:+ "', but got none".

Definition detail_of (unmatched : interaction) : mismatchDetail :=
  {| Actual := "";
     Expected := Message unmatched;
     Mismatch := mismatch_text (Message unmatched) |}.

(** [func sessionMismatches(s *session) mismatched].

    Go visits the entries of a map in an order it does not specify, and
    that may differ from one [range] statement to the next: [ord1] and
    [ord2] are the rearrangements chosen by the two [range] loops. *)
Definition sessionMismatches
    (ord1 ord2 : list (string * interaction) → list (string * interaction))
    (s : session) : mismatched :=
  (* for k, v := range s.interactions { mismatchedInteractions[k] = v } *)
  let copied : gmap string interaction :=
    fold_left (λ m kv, <[kv.1 := kv.2]> m) (ord1 (map_to_list (interactions s))) ∅ in
  (* for _, match := range s.matchedInteractions { delete(..., match) } *)
  let mismatchedInteractions :=
    fold_left (λ m k, delete k m) (matchedInteractions s) copied in
  (* for _, unmatched := range mismatchedInteractions { append } *)
  {| Mismatches :=
       fold_left (λ res kv, (res ++ [detail_of kv.2])%list)
                 (ord2 (map_to_list mismatchedInteractions)) [] |}.

(** An iteration order only rearranges the entries. *)
Definition range_order (ord : list (string * interaction) → list (string * interaction)) : Prop :=
  ∀ l, ord l ≡ₚ l.

(** The order that leaves the entries where they are. *)
Definition same_order (l : list (string * interaction)) : list (string * interaction) := l.

(** [type interactionsRequest struct] after [c.BindJSON]: [None] when the
    body does not bind. *)
Definition interactionsRequest := option (list interaction).

(** The body of [loadInteractions] once the session is found and the
    request is bound: a new map, filled in the order of the request. *)
Definition load (req : list interaction) (s : session) : session :=
  set_interactions (fold_left (λ m v, <[Message v := v]> m) req ∅) s.

(** The admin server: [sessions] maps an identifier to a pointer, [heap]
    holds the [session] each pointer refers to, and [tcpSessions] is what
    has been sent on the channel, oldest first. *)
Record server := mk_server {
  heap : gmap nat session;
  sessions : gmap string nat;
  tcpSessions : list nat
}.

Definition new_server : server :=
  {| heap := ∅; sessions := ∅; tcpSessions := [] |}.

(** [type sessionResponse struct] *)
Record sessionResponse := mk_sessionResponse {
  ID : string;
  Port : Z;
  AdminPort : Z
}.

(** The reply of a gin handler: the status and body it passed to [c.JSON],
    [None] when the handler itself wrote nothing. *)
Definition StatusOK : Z := 200.
Definition StatusNotFound : Z := 404.

(** [&session{id: id, port: port}]: the other two fields are [nil]. *)
Definition new_session (id : string) (port : Z) : session :=
  {| id := id; interactions := ∅; matchedInteractions := []; port := port |}.

(** [func createSession], the handler of [POST /sessions].
    [bound] is [c.BindJSON(&json) == nil], [free_port] what
    [utils.GetFreePort()] returned with its error dropped, [uuid] what
    [uuid.New().String()] returned. *)
Definition createSession (bound : bool) (free_port : Z) (uuid : string)
    (srv : server) : option (Z * sessionResponse) * server :=
  if bound then
    let port := free_port in
    let id := uuid in
    let session := new_session id port in
    let response := {| ID := id; Port := port; AdminPort := 0 |} in
    let ptr := fresh (dom (heap srv)) in
    (Some (StatusOK, response),
     {| heap := <[ptr := session]> (heap srv);
        sessions := <[id := ptr]> (sessions srv);
        tcpSessions := tcpSessions srv ++ [ptr] |})
  else (None, srv).

(** [func loadInteractions], the handler of [POST /sessions/:id/interactions]. *)
Definition loadInteractions (id : string) (json : interactionsRequest)
    (srv : server) : option Z * server :=
  match sessions srv !! id with
  | Some ptr =>
      match json with
      | Some req =>
          (Some StatusOK,
           {| heap := alter (load req) ptr (heap srv);
              sessions := sessions srv;
              tcpSessions := tcpSessions srv |})
      | None => (None, srv)
      end
  | None => (Some StatusNotFound, srv)
  end.

(** [func mismatches], the handler of [GET /sessions/:id/mismatches]. *)
Definition mismatches (ord1 ord2 : list (string * interaction) → list (string * interaction))
    (id : string) (srv : server) : Z * option mismatched :=
  match sessions srv !! id with
  | Some ptr =>
      match heap srv !! ptr with
      | Some session => (StatusOK, Some (sessionMismatches ord1 ord2 session))
      | None => (StatusNotFound, None)
      end
  | None => (StatusNotFound, None)
  end.

(** *** Properties the claims are stated with *)

(** Every key is the message of the interaction stored under it. *)
Definition keyed_by_message (s : session) : Prop :=
  ∀ k v, interactions s !! k = Some v → Message v = k.

(** [matchedMessages ⊆ keys(expectedInteractions)] *)
Definition matched_subset_expected (s : session) : Prop :=
  ∀ k, k ∈ matchedInteractions s → k ∈ dom (interactions s).

(** One operation on a session held by the server: an interaction load
    through the admin API or a message handled on its listener.  The
    mismatch report reads the session and leaves it as it is. *)
Inductive session_step : session → session → Prop :=
  | step_load req s :
      session_step s (load req s)
  | step_handle TrimSpace data err s :
      session_step s (handleRequest TrimSpace data err s).2.

(** The sessions the server can hold. *)
Definition reachable (s : session) : Prop :=
  ∃ id port, rtc session_step (new_session id port) s.

(** As [session_step], with every load providing a key for each message
    matched so far; a load that precedes all matching is one. *)
Inductive covered_step : session → session → Prop :=
  | covered_load req s :
      (∀ k, k ∈ matchedInteractions s → k ∈ Message <$> req) →
      covered_step s (load req s)
  | covered_handle TrimSpace data err s :
      covered_step s (handleRequest TrimSpace data err s).2.

(** The report as the specification words it: one entry for each key of
    [expected \ matched]. *)
Definition detail_of_key (k : string) : mismatchDetail :=
  {| Actual := ""; Expected := k; Mismatch := mismatch_text k |}.

Definition spec_mismatches (s : session) : list mismatchDetail :=
  detail_of_key <$>
    elements (dom (interactions s) ∖ list_to_set (matchedInteractions s) : gset string).

(** The bytes [strings.TrimSpace] removes from both ends of an ASCII
    message: tab, line feed, vertical tab, form feed, carriage return and
    space. *)
Definition ascii_space (c : ascii) : bool :=
  let n := nat_of_ascii c in
  ((9 <=? n)%nat && (n <=? 13)%nat) || (n =? 32)%nat.

Fixpoint trim_left (l : list ascii) : list ascii :=
  match l with
  | c :: l' => if ascii_space c then trim_left l' else l
  | [] => []
  end.

Definition ascii_TrimSpace (s : string) : string :=
  string_of_list_ascii
    (rev (trim_left (rev (trim_left (list_ascii_of_string s))))).

(** Sessions used as concrete inputs. *)
Definition ping : interaction :=
  {| Message := "PING"; Response := "PONG"; Delimeter := "" |}.
Definition hello : interaction :=
  {| Message := "HELLO"; Response := "WORLD"; Delimeter := "" |}.

Definition ping_session : session := load [ping] (new_session "s1" 50000).

(** [PING] is loaded and matched, then the table is replaced by [HELLO]. *)
Definition reloaded_session : session :=
  load [hello] (handleRequest ascii_TrimSpace "PING" NoError ping_session).2.

(** *** The server as a whole *)

(** [go handleRequest(conn, s)] in [startTCPListener], for the listener
    that was started with the pointer [ptr]: the bytes written back, and
    the server with the session behind [ptr] as the handler leaves it. *)
Definition serve (TrimSpace : string → string) (ptr : nat)
    (data : string) (err : read_error) (srv : server) : option string * server :=
  match heap srv !! ptr with
  | Some s =>
      let '(response, s') := handleRequest TrimSpace data err s in
      (Some response,
       {| heap := <[ptr := s']> (heap srv);
          sessions := sessions srv;
          tcpSessions := tcpSessions srv |})
  | None => (None, srv)
  end.

(** One request to the admin API, or one connection to a listener that
    [listenForSessions] has started. *)
Inductive server_step : server → server → Prop :=
  | step_createSession bound free_port uuid srv :
      server_step srv (createSession bound free_port uuid srv).2
  | step_loadInteractions id json srv :
      server_step srv (loadInteractions id json srv).2
  | step_serve TrimSpace ptr data err srv :
      ptr ∈ tcpSessions srv →
      server_step srv (serve TrimSpace ptr data err srv).2.

(** The state [startProvider] and the handlers keep the server in: every
    registered identifier points to a session that carries it, each
    session has been sent to the listener loop exactly once, and the
    table of each session is keyed by the messages. *)
Record server_ok (srv : server) : Prop := mk_server_ok {
  registered_live : ∀ i ptr,
    sessions srv !! i = Some ptr → ∃ s, heap srv !! ptr = Some s ∧ id s = i;
  listeners_sessions : ∀ ptr, ptr ∈ tcpSessions srv ↔ ptr ∈ dom (heap srv);
  listeners_once : NoDup (tcpSessions srv);
  tables_keyed : ∀ ptr s, heap srv !! ptr = Some s → keyed_by_message s
}.

(** The messages of a request, each once. *)
Definition messages_of (req : list interaction) : gset string :=
  list_to_set (Message <$> req).

(** A server with one session, holding [PING]. *)
Definition ping_server : server :=
  (loadInteractions "s1" (Some [ping])
     (createSession true 50000 "s1" new_server).2).2.

End PluginSocket.

(** ** What the two packages share with the outside *)
Module World.

(** A value of type [interface{}]; the provider only stores such values
    and hands them to [json.Marshal]. *)
Inductive any := Any (n : nat).

(** A Go [error], as the message [Error()] returns. *)
Definition error := string.

(** The calls made while a test runs, in the order made: the functions of
    the native engine with the arguments they receive (the two that write
    a pact file are declared in the cgo header), the readiness poll, the
    consumer's test function, and the two methods of the provider whose
    executions the specification counts. *)
Inductive call :=
  | create_plugin_mock_server_call (port : Z) (config : string)
  | add_plugin_interaction_call (port : Z) (config : string)
  | plugin_mock_server_matched_call (port : Z)
  | plugin_mock_server_mismatches_call (port : Z)
  | cleanup_plugin_mock_server_call (port : Z)
  | write_pact_file_call (port : Z) (dir : string)
  | plugin_write_pact_file_call (port : Z) (dir : string)
  | waitForPort_call (port : Z) (network address : string) (timeout : Z)
                     (message : string)
  | integrationTest_call (port : Z) (host : string)
  | cleanInteractions_call
  | WritePact_call.

#[global] Instance call_eq_dec : EqDecision call.
Proof. solve_decision. Defined.

(** How often [c] was made. *)
Definition times (c : call) (h : list call) : nat :=
  length (filter (λ c', c' = c) h).

End World.

(** ** package native *)
Module Native.
Import World.

(** [type PluginInteractionMismatchDetail struct] *)
Record PluginInteractionMismatchDetail := mk_detail {
  Actual : string;
  Expected : string;
  Mismatch : string
}.

(** [type PluginInteractionMismatch struct]; the zero value has no
    mismatch. *)
Record PluginInteractionMismatch := mk_mismatch {
  Mismatches : list PluginInteractionMismatchDetail
}.

(** [C.int(x)]: a Go [int] cut to the 32 bits of a C [int]. *)
Definition C_int (x : Z) : Z := (x + 2 ^ 31) mod 2 ^ 32 - 2 ^ 31.

(** The native engine and [encoding/json], as they answer during one
    test: each function gives the value the call returns for the
    arguments it receives. *)
Record Engine := mk_Engine {
  create_plugin_mock_server : Z → string → Z;
  add_plugin_interaction : Z → string → Z;
  plugin_mock_server_matched : Z → Z;
  plugin_mock_server_mismatches : Z → string;
  cleanup_plugin_mock_server : Z → Z;
  write_pact_file : Z → string → Z;
  (* json.Marshal of struct{Interactions []interface{}} *)
  json_Marshal : list any → string + error;
  (* json.Unmarshal into a PluginInteractionMismatch *)
  json_Unmarshal : string → PluginInteractionMismatch + error
}.

(** [func CreatePluginMockServer(port int, cmd string) (int, error)] *)
Definition CreatePluginMockServer (eng : Engine) (port : Z) (cmd : string)
    (h : list call) : (Z * option error) * list call :=
  let p := C_int (create_plugin_mock_server eng (C_int port) cmd) in
  ((p, None), (h ++ [create_plugin_mock_server_call (C_int port) cmd])%list).

(** [func AddPluginInteractions(port int, interactions []interface{}) error] *)
Definition AddPluginInteractions (eng : Engine) (port : Z)
    (interactions : list any) (h : list call) : option error * list call :=
  match json_Marshal eng interactions with
  | inr err => (Some err, h)
  | inl b =>
      let _ := add_plugin_interaction eng (C_int port) b in
      (None, (h ++ [add_plugin_interaction_call (C_int port) b])%list)
  end.

(** [func CleanupPluginMockServer(port int) bool] *)
Definition CleanupPluginMockServer (eng : Engine) (port : Z)
    (h : list call) : bool * list call :=
  let res := C_int (cleanup_plugin_mock_server eng (C_int port)) in
  ((res =? 1)%Z, (h ++ [cleanup_plugin_mock_server_call (C_int port)])%list).

(** [func PluginMockServerMismatchedRequests(port int)
    (PluginInteractionMismatch, error)] *)
Definition PluginMockServerMismatchedRequests (eng : Engine) (port : Z)
    (h : list call) : (PluginInteractionMismatch * option error) * list call :=
  let mismatches := plugin_mock_server_mismatches eng (C_int port) in
  let h := (h ++ [plugin_mock_server_mismatches_call (C_int port)])%list in
  match json_Unmarshal eng mismatches with
  | inr err => (({| Mismatches := [] |}, Some err), h)
  | inl res => ((res, None), h)
  end.

(** [func VerifyPlugin(port int) (bool, PluginInteractionMismatch)] *)
Definition VerifyPlugin (eng : Engine) (port : Z)
    (h : list call) : (bool * PluginInteractionMismatch) * list call :=
  let res := C_int (plugin_mock_server_matched eng (C_int port)) in
  let h := (h ++ [plugin_mock_server_matched_call (C_int port)])%list in
  let '((mismatched, err), h) := PluginMockServerMismatchedRequests eng port h in
  match err with
  | Some _ => ((false, {| Mismatches := [] |}), h)
  | None => (((res =? 1)%Z, mismatched), h)
  end.

(** [ErrMockServerPanic], [ErrUnableToWritePactFile],
    [ErrMockServerNotfound] *)
Definition ErrMockServerPanic : error :=
  "a general panic occured when starting/invoking mock service (this indicates a defect in the framework)".
Definition ErrUnableToWritePactFile : error := "unable to write to file".
Definition ErrMockServerNotfound : error :=
  "unable to find mock server with the given port".

(** [func WritePactFile(port int, dir string) error] *)
Definition WritePactFile (eng : Engine) (port : Z) (dir : string)
    (h : list call) : option error * list call :=
  let res := C_int (write_pact_file eng (C_int port) dir) in
  let h := (h ++ [write_pact_file_call (C_int port) dir])%list in
  (match res with
   | 0 => None
   | 1 => Some ErrMockServerPanic
   | 2 => Some ErrUnableToWritePactFile
   | 3 => Some ErrMockServerNotfound
   | _ => Some "an unknown error ocurred when writing to pact file"
   end, h).

(** The engine [eng] with another answer to [add_plugin_interaction]. *)
Definition with_add_plugin_interaction (f : Z → string → Z) (eng : Engine) : Engine :=
  {| create_plugin_mock_server := create_plugin_mock_server eng;
     add_plugin_interaction := f;
     plugin_mock_server_matched := plugin_mock_server_matched eng;
     plugin_mock_server_mismatches := plugin_mock_server_mismatches eng;
     cleanup_plugin_mock_server := cleanup_plugin_mock_server eng;
     write_pact_file := write_pact_file eng;
     json_Marshal := json_Marshal eng;
     json_Unmarshal := json_Unmarshal eng |}.

(** *** The HTTP mock server *)

(** [ErrInvalidMockServerConfig], [ErrInvalidPact],
    [ErrMockServerUnableToStart], [ErrInvalidAddress],
    [ErrMockServerTLSConfiguration] *)
Definition ErrInvalidMockServerConfig : error :=
  "configuration for the mock server was invalid and an unknown error occurred (this is most likely a defect in the framework)".
Definition ErrInvalidPact : error := "pact given to mock server is invalid".
Definition ErrMockServerUnableToStart : error := "unable to start the mock server".
Definition ErrInvalidAddress : error :=
  "invalid address provided to the mock server".
Definition ErrMockServerTLSConfiguration : error :=
  "a tls mock server could not be started (this is likely a defect in the framework)".

(** [fmt.Errorf("an unknown error (code: %v) occurred when starting a mock
    server for the test", port)] *)
Definition unknown_start_error (port : Z) : error :=
  "an unknown error (code: " +:+ pretty port
  +:+ ") occurred when starting a mock server for the test".

(** [func CreateMockServer(pact string, address string, tls bool)
    (int, error)]; [create_mock_server] gives the answer of the engine. *)
Definition CreateMockServer (create_mock_server : string → string → Z → Z)
    (pact address : string) (tls : bool) : Z * option error :=
  let tlsEnabled := if tls then 1 else 0 in
  let port := C_int (create_mock_server pact address (C_int tlsEnabled)) in
  match port with
  | Z.neg 1 => (0, Some ErrInvalidMockServerConfig)
  | Z.neg 2 => (0, Some ErrInvalidPact)
  | Z.neg 3 => (0, Some ErrMockServerUnableToStart)
  | Z.neg 4 => (0, Some ErrMockServerPanic)
  | Z.neg 5 => (0, Some ErrInvalidAddress)
  | Z.neg 6 => (0, Some ErrMockServerTLSConfiguration)
  | _ =>
      if (0 <? port)%Z then (port, None)
      else (port, Some (unknown_start_error port))
  end.

End Native.

(** ** package v3 *)
Module V3.
Import World.

(** [type PluginProviderConfig struct] *)
Record PluginProviderConfig := mk_config {
  Consumer : string;
  Provider : string;
  LogDir : string;
  PactDir : string;
  Host : string;
  Port : Z
}.

(** [type PluginProvider struct] *)
Record PluginProvider := mk_provider {
  config : PluginProviderConfig;
  Interactions : list any
}.

(** [type MockServerConfig struct], with the certificate authority of the
    TLS configuration as its PEM text. *)
Record MockServerConfig := mk_MockServerConfig {
  MockPort : Z;
  MockHost : string;
  TLSConfig : string
}.

(** What [validateConfig] asks of the standard library and of [utils]:
    [os.Getwd()] with its error dropped, [filepath.Join],
    [fmt.Sprintf(format)] with no operand, and [utils.GetFreePort()]. *)
Record Platform := mk_Platform {
  Getwd : string;
  Join : string → string → string;
  Sprintf : string → string;
  GetFreePort : Z * option error
}.

Definition set_Host (v : string) (c : PluginProviderConfig) :=
  {| Consumer := Consumer c; Provider := Provider c; LogDir := LogDir c;
     PactDir := PactDir c; Host := v; Port := Port c |}.
Definition set_LogDir (v : string) (c : PluginProviderConfig) :=
  {| Consumer := Consumer c; Provider := Provider c; LogDir := v;
     PactDir := PactDir c; Host := Host c; Port := Port c |}.
Definition set_PactDir (v : string) (c : PluginProviderConfig) :=
  {| Consumer := Consumer c; Provider := Provider c; LogDir := LogDir c;
     PactDir := v; Host := Host c; Port := Port c |}.
Definition set_Port (v : Z) (c : PluginProviderConfig) :=
  {| Consumer := Consumer c; Provider := Provider c; LogDir := LogDir c;
     PactDir := PactDir c; Host := Host c; Port := v |}.

Definition is_empty (s : string) : bool :=
  match s with EmptyString => true | _ => false end.

(** [func (p *PluginProvider) validateConfig() error]: the error and the
    provider as the call leaves it. *)
Definition validateConfig (pf : Platform) (p : PluginProvider)
    : option error * PluginProvider :=
  let dir := Getwd pf in
  let c := config p in
  let c := if is_empty (Host c) then set_Host "127.0.0.1" c else c in
  let c := if is_empty (LogDir c)
           then set_LogDir (Sprintf pf (Join pf dir "logs")) c else c in
  let c := if is_empty (PactDir c)
           then set_PactDir (Sprintf pf (Join pf dir "pacts")) c else c in
  let '(c, pErr) :=
    if (Port c <=? 0)%Z
    then (set_Port (GetFreePort pf).1 c, (GetFreePort pf).2)
    else (c, None) in
  let p := {| config := c; Interactions := Interactions p |} in
  match pErr with
  | Some _ =>
      (Some "error: unable to find free port, mock server will fail to start", p)
  | None => (None, p)
  end.

(** [func NewPluginProvider(config PluginProviderConfig)]: the provider,
    [None] for [nil], and the error. *)
Definition NewPluginProvider (pf : Platform) (config : PluginProviderConfig)
    : option PluginProvider * option error :=
  let provider := {| config := config; Interactions := [] |} in
  let '(err, provider) := validateConfig pf provider in
  match err with
  | Some e => (None, Some e)
  | None => (Some provider, None)
  end.

(** [func (p *PluginProvider) cleanInteractions()] *)
Definition cleanInteractions (p : PluginProvider) (h : list call)
    : PluginProvider * list call :=
  ({| config := config p; Interactions := [] |}, (h ++ [cleanInteractions_call])%list).

(** [func (p *PluginProvider) WritePact() error]: the body logs a line and
    returns [nil]. *)
Definition WritePact (p : PluginProvider) (h : list call)
    : option error * list call :=
  (None, (h ++ [WritePact_call])%list).

(** [func (p *PluginProvider) AddInteraction(i interface{})] *)
Definition AddInteraction (i : any) (p : PluginProvider) : PluginProvider :=
  {| config := config p; Interactions := (Interactions p ++ [i])%list |}.

(** The rest of what [ExecuteTest] meets during one run: the engine,
    [waitForPort] (same package, given the port, network, address,
    timeout in nanoseconds and message) and the certificate authority
    [GetTLSConfigForTLSMockServer] reads. *)
Record Env := mk_Env {
  engine : Native.Engine;
  waitForPort : Z → string → string → Z → string → option error;
  GetTLSConfigForTLSMockServer : string
}.

(** The consumer's test function.  It is a closure and may add to the
    interactions of the provider it was written for: it is given the
    current list and returns the list it leaves. *)
Definition test_func : Type :=
  MockServerConfig → list any → option error * list any.

(** A call registered with [defer]. *)
Inductive deferred :=
  | defer_CleanupPluginMockServer (port : Z)
  | defer_cleanInteractions.

Definition run_deferred (env : Env) (d : deferred)
    (st : PluginProvider * list call) : PluginProvider * list call :=
  match d with
  | defer_CleanupPluginMockServer port =>
      (st.1, (Native.CleanupPluginMockServer (engine env) port st.2).2)
  | defer_cleanInteractions => cleanInteractions st.1 st.2
  end.

(** [return err]: the deferred calls run, the one registered last first;
    [ds] has that one at its head. *)
Definition Return (env : Env) (ds : list deferred) (err : option error)
    (p : PluginProvider) (h : list call)
    : option error * PluginProvider * list call :=
  let st := fold_left (λ st d, run_deferred env d st) ds (p, h) in
  (err, st.1, st.2).

(** [fmt.Sprintf("%+v", b)] for a [bool]. *)
Definition show_bool (b : bool) : string := if b then "true" else "false".

(** [fmt.Sprintf("%+v", m)] for a [PluginInteractionMismatch]. *)
Definition show_detail (d : Native.PluginInteractionMismatchDetail) : string :=
  "{Actual:" +:+ Native.Actual d +:+ " Expected:" +:+ Native.Expected d
  +:+ " Mismatch:" +:+ Native.Mismatch d +:+ "}".

Definition show_mismatch (m : Native.PluginInteractionMismatch) : string :=
  "{Mismatches:[" +:+ String.concat " " (show_detail <$> Native.Mismatches m)
  +:+ "]}".

(** [fmt.Errorf("pact validation failed: %+v %+v", res, mismatches)] *)
Definition validation_failed (res : bool)
    (mismatches : Native.PluginInteractionMismatch) : error :=
  "pact validation failed: " +:+ show_bool res +:+ " " +:+ show_mismatch mismatches.

(** [fmt.Sprintf(`Timed out waiting for plugin to start on port %d:`, port)] *)
Definition timeout_message (port : Z) : string :=
  "Timed out waiting for plugin to start on port " +:+ pretty port +:+ ":".

(** [10*time.Second], in nanoseconds. *)
Definition ten_seconds : Z := 10 * 1000000000.

(** [func (p *PluginProvider) ExecuteTest(integrationTest
    func(MockServerConfig) error) error]: the error returned, the provider
    and the calls made once the deferred calls have run. *)
Definition ExecuteTest (env : Env) (integrationTest : test_func)
    (p : PluginProvider) (h : list call)
    : option error * PluginProvider * list call :=
  let port := Port (config p) in
  let '((clientPort, err), h) :=
    Native.CreatePluginMockServer (engine env) port "test" h in
  match err with
  | Some e => Return env [] (Some e) p h
  | None =>
  let defers := [defer_CleanupPluginMockServer port] in
  let message := timeout_message port in
  let err := waitForPort env port "tcp" "localhost" ten_seconds message in
  let h := (h ++ [waitForPort_call port "tcp" "localhost" ten_seconds message])%list in
  match err with
  | Some e => Return env defers (Some e) p h
  | None =>
  let '(err, h) :=
    Native.AddPluginInteractions (engine env) port (Interactions p) h in
  match err with
  | Some e => Return env defers (Some e) p h
  | None =>
  let defers := defer_cleanInteractions :: defers in
  let cfg := {| MockPort := clientPort; MockHost := Host (config p);
                TLSConfig := GetTLSConfigForTLSMockServer env |} in
  let '(err, added) := integrationTest cfg (Interactions p) in
  let p := {| config := config p; Interactions := added |} in
  let h := (h ++ [integrationTest_call clientPort (Host (config p))])%list in
  match err with
  | Some e => Return env defers (Some e) p h
  | None =>
  let '((res, mismatches), h) := Native.VerifyPlugin (engine env) port h in
  if negb res
  then Return env defers (Some (validation_failed res mismatches)) p h
  else
    let '(err, h) := WritePact p h in
    Return env defers err p h
  end end end end.

(** The answer [ExecuteTest] gets from the readiness poll. *)
Definition poll (env : Env) (port : Z) : option error :=
  waitForPort env port "tcp" "localhost" ten_seconds (timeout_message port).

(** [env] with another answer to [add_plugin_interaction]. *)
Definition with_add_answer (f : Z → string → Z) (env : Env) : Env :=
  {| engine := Native.with_add_plugin_interaction f (engine env);
     waitForPort := waitForPort env;
     GetTLSConfigForTLSMockServer := GetTLSConfigForTLSMockServer env |}.

(** The configuration the test function is called with. *)
Definition test_config (env : Env) (p : PluginProvider) : MockServerConfig :=
  {| MockPort := Native.C_int (Native.create_plugin_mock_server
                                 (engine env) (Native.C_int (Port (config p))) "test");
     MockHost := Host (config p);
     TLSConfig := GetTLSConfigForTLSMockServer env |}.

(** The calls of a run up to and including the test function. *)
Definition calls_until_test (env : Env) (p : PluginProvider) (b : string)
    : list call :=
  [create_plugin_mock_server_call (Native.C_int (Port (config p))) "test";
   waitForPort_call (Port (config p)) "tcp" "localhost" ten_seconds
                    (timeout_message (Port (config p)));
   add_plugin_interaction_call (Native.C_int (Port (config p))) b;
   integrationTest_call (MockPort (test_config env p)) (Host (config p))].

(** *** The standard library, as far as [validateConfig] relies on it *)

Fixpoint no_percent (s : string) : bool :=
  match s with
  | EmptyString => true
  | String c s' => negb (Ascii.eqb c "%") && no_percent s'
  end.

(** A verb byte that [fmt] reads as the verb itself: ASCII, and none of
    the flags, digits, ["["], ["*"], ["."] or ["%"]. *)
Definition plain_verb (c : ascii) : bool :=
  (nat_of_ascii c <? 128)%nat
  && negb (existsb (Ascii.eqb c) (list_ascii_of_string "%#+- 0123456789[*.")).

(** What the documentation of [fmt] and [path/filepath] and the contract
    of [utils.GetFreePort] give:
    - a format without ["%"] is printed as it is;
    - a verb with no operand left prints as ["%!verb(MISSING)"], and
      printing goes on after it;
    - a format that is not empty prints something;
    - [Join] of elements, one of them not empty, is not empty;
    - a port obtained without error is a port the system assigned, which
      is positive. *)
Record library_laws (pf : Platform) : Prop := mk_library_laws {
  Sprintf_literal : ∀ s, no_percent s = true → Sprintf pf s = s;
  Sprintf_missing : ∀ pre c rest,
    no_percent pre = true → plain_verb c = true →
    Sprintf pf (pre +:+ String "%" (String c rest))
    = pre +:+ "%!" +:+ String c "(MISSING)" +:+ Sprintf pf rest;
  Sprintf_nonempty : ∀ s, s ≠ "" → Sprintf pf s ≠ "";
  Join_nonempty : ∀ d e, e ≠ "" → Join pf d e ≠ "";
  GetFreePort_positive : (GetFreePort pf).2 = None → 0 < (GetFreePort pf).1
}.

(** [fmt.Sprintf(format)] on the formats in which every ["%"] is followed
    by ["%"] or by a [plain_verb], or ends the format. *)
Fixpoint Sprintf_plain (format : string) : string :=
  match format with
  | EmptyString => ""
  | String c rest =>
      if Ascii.eqb c "%" then
        match rest with
        | EmptyString => "%!(NOVERB)"
        | String v rest' =>
            if Ascii.eqb v "%" then String "%" (Sprintf_plain rest')
            else "%!" +:+ String v "(MISSING)" +:+ Sprintf_plain rest'
        end
      else String c (Sprintf_plain rest)
  end.

(** [filepath.Join(dir, elem)] for a [dir] that is empty or a clean path
    other than the root, and a plain name [elem]. *)
Definition Join_clean (dir elem : string) : string :=
  if is_empty dir then elem else dir +:+ "/" +:+ elem.

(** *** Concrete inputs *)

Definition home_platform : Platform :=
  {| Getwd := "/home/pact"; Join := Join_clean; Sprintf := Sprintf_plain;
     GetFreePort := (50123, None) |}.

(** A working directory whose name has a ["%"]. *)
Definition percent_platform : Platform :=
  {| Getwd := "/tmp/100%"; Join := Join_clean; Sprintf := Sprintf_plain;
     GetFreePort := (50123, None) |}.

Definition empty_config : PluginProviderConfig :=
  {| Consumer := "consumer"; Provider := "provider"; LogDir := "";
     PactDir := ""; Host := ""; Port := 0 |}.

Definition ready_config : PluginProviderConfig :=
  {| Consumer := "consumer"; Provider := "provider";
     LogDir := "/home/pact/logs"; PactDir := "/home/pact/pacts";
     Host := "127.0.0.1"; Port := 50123 |}.

(** A provider with one pending interaction. *)
Definition pending_provider : PluginProvider :=
  {| config := ready_config; Interactions := [Any 0] |}.

Definition one_mismatch : Native.PluginInteractionMismatch :=
  {| Native.Mismatches :=
       [ {| Native.Actual := ""; Native.Expected := "PING";
            Native.Mismatch := "expected message 'PING', but got none" |} ] |}.

(** An engine that starts, takes the interactions, reports a match and,
    all the same, one mismatch. *)
Definition matched_with_mismatch_engine : Native.Engine :=
  {| Native.create_plugin_mock_server := λ _ _, 50200;
     Native.add_plugin_interaction := λ _ _, 0;
     Native.plugin_mock_server_matched := λ _, 1;
     Native.plugin_mock_server_mismatches := λ _, "{mismatches}";
     Native.cleanup_plugin_mock_server := λ _, 1;
     Native.write_pact_file := λ _ _, 0;
     Native.json_Marshal := λ _, inl "{interactions}";
     Native.json_Unmarshal := λ _, inl one_mismatch |}.

(** The plugin is up in time. *)
Definition ready_env : Env :=
  {| engine := matched_with_mismatch_engine;
     waitForPort := λ _ _ _ _ _, None;
     GetTLSConfigForTLSMockServer := "" |}.

(** The plugin does not come up within the ten seconds. *)
Definition timeout_env : Env :=
  {| engine := matched_with_mismatch_engine;
     waitForPort := λ _ _ _ _ message, Some message;
     GetTLSConfigForTLSMockServer := "" |}.

(** As [matched_with_mismatch_engine], with the engine's codes for failure
    as answers to the start and to the load. *)
Definition failing_engine : Native.Engine :=
  {| Native.create_plugin_mock_server := λ _ _, -3;
     Native.add_plugin_interaction := λ _ _, -1;
     Native.plugin_mock_server_matched := λ _, 1;
     Native.plugin_mock_server_mismatches := λ _, "{mismatches}";
     Native.cleanup_plugin_mock_server := λ _, 1;
     Native.write_pact_file := λ _ _, 0;
     Native.json_Marshal := λ _, inl "{interactions}";
     Native.json_Unmarshal := λ _, inl one_mismatch |}.

(** The pending interactions hold a value [json.Marshal] refuses. *)
Definition unmarshalable_env : Env :=
  {| engine :=
       {| Native.create_plugin_mock_server := λ _ _, 50200;
          Native.add_plugin_interaction := λ _ _, 0;
          Native.plugin_mock_server_matched := λ _, 1;
          Native.plugin_mock_server_mismatches := λ _, "{mismatches}";
          Native.cleanup_plugin_mock_server := λ _, 1;
          Native.write_pact_file := λ _ _, 0;
          Native.json_Marshal := λ _, inr "json: unsupported type: chan int";
          Native.json_Unmarshal := λ _, inl one_mismatch |};
     waitForPort := λ _ _ _ _ _, None;
     GetTLSConfigForTLSMockServer := "" |}.

(** A test function that passes and adds nothing. *)
Definition passing_test : test_func := λ _ added, (None, added).

(** A test function that adds an interaction and then fails. *)
Definition failing_test : test_func :=
  λ _ added, (Some "unexpected response", (added ++ [Any 1])%list).

End V3.

(** * Theorems *)

(** ** The plugin socket server *)
Section PluginSocketFacts.
Import PluginSocket.

Implicit Types (s : session) (m : gmap string interaction).

(** *** The three loops of [sessionMismatches] and the loop of [load] *)

Lemma copy_loop ord m :
  range_order ord →
  fold_left (λ acc (kv : string * interaction), <[kv.1 := kv.2]> acc)
            (ord (map_to_list m)) ∅ = m.
Proof.
  intros Hord.
  rewrite <- fold_left_rev_right.
  change (list_to_map (rev (ord (map_to_list m))) = m).
  assert (Hperm : rev (ord (map_to_list m)) ≡ₚ map_to_list m).
  { rewrite <- Permutation_rev. apply Hord. }
  rewrite <- (list_to_map_to_list m) at 2.
  apply list_to_map_proper; [| exact Hperm].
  rewrite Hperm. apply NoDup_fst_map_to_list.
Qed.

Lemma delete_loop ks m k :
  fold_left (λ acc k', delete k' acc) ks m !! k
  = if decide (k ∈ ks) then None else m !! k.
Proof.
  revert m. induction ks as [|k0 ks IH]; intros m; simpl.
  - destruct (decide (k ∈ [])) as [H|H]; [by apply elem_of_nil in H | done].
  - rewrite IH. destruct (decide (k = k0)) as [->|Hne].
    + rewrite lookup_delete_eq.
      destruct (decide (k0 ∈ ks)), (decide (k0 ∈ k0 :: ks)); try done;
        exfalso; set_solver.
    + rewrite lookup_delete_ne by done.
      destruct (decide (k ∈ ks)), (decide (k ∈ k0 :: ks)); try done;
        exfalso; set_solver.
Qed.

Lemma delete_loop_dom ks m :
  dom (fold_left (λ acc k', delete k' acc) ks m) = dom m ∖ list_to_set ks.
Proof.
  apply set_eq; intros k.
  rewrite elem_of_dom, delete_loop, elem_of_difference, elem_of_dom,
    elem_of_list_to_set.
  destruct (decide (k ∈ ks)) as [Hin|Hin]; split; try tauto.
  intros Hn; by apply is_Some_None in Hn.
Qed.

Lemma append_loop {A B} (f : A → B) (l : list A) (acc : list B) :
  fold_left (λ res x, (res ++ [f x])%list) l acc = (acc ++ (f <$> l))%list.
Proof.
  revert acc. induction l as [|x l IH]; intros acc; simpl.
  - by rewrite app_nil_r.
  - rewrite IH. by rewrite <- app_assoc.
Qed.

Lemma load_loop_keyed req m :
  (∀ k v, m !! k = Some v → Message v = k) →
  ∀ k v, fold_left (λ acc v', <[Message v' := v']> acc) req m !! k = Some v →
         Message v = k.
Proof.
  revert m. induction req as [|i req IH]; intros m Hm k v; simpl; [by apply Hm|].
  apply IH. intros k' v'. rewrite lookup_insert.
  case_decide; [naive_solver | apply Hm].
Qed.

Lemma load_loop_dom req m :
  dom (fold_left (λ acc v', <[Message v' := v']> acc) req m)
  = list_to_set (Message <$> req) ∪ dom m.
Proof.
  revert m. induction req as [|i req IH]; intros m; simpl.
  - set_solver.
  - rewrite IH, dom_insert_L. set_solver.
Qed.

(** *** What the operations keep *)

Lemma new_session_keyed i p : keyed_by_message (new_session i p).
Proof. intros k v; simpl. by rewrite lookup_empty. Qed.

Lemma load_keyed req s : keyed_by_message (load req s).
Proof.
  intros k v; simpl. apply load_loop_keyed.
  intros k' v'. by rewrite lookup_empty.
Qed.

Lemma matchRequest_interactions message s :
  interactions (matchRequest message s).2 = interactions s.
Proof. unfold matchRequest. by destruct (interactions s !! message). Qed.

Lemma handleRequest_interactions ts data err s :
  interactions (handleRequest ts data err s).2 = interactions s.
Proof. destruct err; simpl; auto using matchRequest_interactions. Qed.

Lemma handleRequest_keyed ts data err s :
  keyed_by_message s → keyed_by_message (handleRequest ts data err s).2.
Proof. unfold keyed_by_message. by rewrite handleRequest_interactions. Qed.

Lemma session_step_keyed s s' :
  session_step s s' → keyed_by_message s → keyed_by_message s'.
Proof.
  destruct 1; intros Hk; [apply load_keyed | by apply handleRequest_keyed].
Qed.

Lemma reachable_keyed s : reachable s → keyed_by_message s.
Proof.
  intros (i & p & Hrun).
  assert (Hstart : keyed_by_message (new_session i p)) by apply new_session_keyed.
  revert Hstart. induction Hrun as [|x y z Hstep _ IH]; [done|].
  intros Hx. apply IH. by eapply session_step_keyed.
Qed.

Lemma new_session_subset i p : matched_subset_expected (new_session i p).
Proof. intros k; simpl. by intros ?%elem_of_nil. Qed.

Lemma matchRequest_subset message s :
  matched_subset_expected s → matched_subset_expected (matchRequest message s).2.
Proof.
  intros Hs k. unfold matchRequest.
  destruct (interactions s !! message) as [r|] eqn:Hlook; simpl; [|apply Hs].
  rewrite elem_of_app, list_elem_of_singleton. intros [Hk | ->]; [by apply Hs|].
  apply elem_of_dom; eauto.
Qed.

Lemma handleRequest_subset ts data err s :
  matched_subset_expected s →
  matched_subset_expected (handleRequest ts data err s).2.
Proof. destruct err; simpl; auto using matchRequest_subset. Qed.

Lemma load_subset req s :
  (∀ k, k ∈ matchedInteractions s → k ∈ Message <$> req) →
  matched_subset_expected (load req s).
Proof.
  intros Hcov k Hk. simpl in *. rewrite load_loop_dom.
  apply elem_of_union_l, elem_of_list_to_set. by apply Hcov.
Qed.

(** *** The report *)

Lemma sessionMismatches_eq ord1 ord2 s :
  range_order ord1 →
  Mismatches (sessionMismatches ord1 ord2 s)
  = (λ kv : string * interaction, detail_of kv.2) <$>
      ord2 (map_to_list
              (fold_left (λ acc k', delete k' acc) (matchedInteractions s)
                         (interactions s))).
Proof.
  intros H1. unfold sessionMismatches; simpl.
  rewrite (copy_loop ord1 _ H1). by rewrite append_loop.
Qed.

Lemma sessionMismatches_spec ord1 ord2 s :
  range_order ord1 → range_order ord2 → keyed_by_message s →
  Mismatches (sessionMismatches ord1 ord2 s) ≡ₚ spec_mismatches s.
Proof.
  intros H1 H2 Hk. rewrite sessionMismatches_eq by done.
  set (rest := fold_left _ _ _).
  rewrite (H2 (map_to_list rest)).
  assert (Hsame : (λ kv : string * interaction, detail_of kv.2) <$> map_to_list rest
                  = detail_of_key <$> (map_to_list rest).*1).
  { rewrite <- list_fmap_compose. apply list_fmap_ext.
    intros i [k v] Hin%list_elem_of_lookup_2%elem_of_map_to_list. simpl.
    unfold rest in Hin. rewrite delete_loop in Hin.
    destruct (decide (k ∈ matchedInteractions s)); [done|].
    unfold detail_of, detail_of_key. by rewrite (Hk _ _ Hin). }
  rewrite Hsame. unfold spec_mismatches. apply fmap_Permutation.
  apply NoDup_Permutation.
  - apply NoDup_fst_map_to_list.
  - apply NoDup_elements.
  - intros k. rewrite elem_of_elements, <- delete_loop_dom. fold rest.
    rewrite elem_of_dom, list_elem_of_fmap. split.
    + intros ([k' v] & -> & Hin%elem_of_map_to_list). eauto.
    + intros [v Hv]. exists (k, v). split; [done|]. by apply elem_of_map_to_list.
Qed.

Lemma detail_of_key_inj : Inj (=) (=) detail_of_key.
Proof. intros k1 k2 Heq. by injection Heq. Qed.

Lemma spec_mismatches_NoDup s : NoDup (spec_mismatches s).
Proof.
  unfold spec_mismatches. apply NoDup_fmap_2; [apply detail_of_key_inj|].
  apply NoDup_elements.
Qed.

Lemma elem_of_spec_mismatches s d :
  d ∈ spec_mismatches s ↔
  ∃ k, d = detail_of_key k ∧ k ∈ dom (interactions s) ∧ k ∉ matchedInteractions s.
Proof.
  unfold spec_mismatches. rewrite list_elem_of_fmap.
  split; intros (k & -> & Hk); exists k; (split; [done|]);
    revert Hk; rewrite elem_of_elements, elem_of_difference, elem_of_list_to_set;
    tauto.
Qed.

Lemma reachable_ping_session : reachable ping_session.
Proof.
  exists "s1", 50000. apply rtc_once. apply (step_load [ping]).
Qed.

Lemma range_order_same : range_order same_order.
Proof. intros l. reflexivity. Qed.

(** *** C2 *)

(** C2.  For every session the server can hold and whatever order the two
    [range] loops take, the report of [sessionMismatches] is, up to order,
    the list with exactly one [mismatchDetail] per key of
    [keys(interactions) \ matchedInteractions], with [Actual = ""],
    [Expected] the key and the text "expected message '<key>', but got
    none".  It has no repeated entry, no matched key is the [Expected] of
    an entry, and matching an already matched key once more leaves the
    report as it is. *)
Theorem C2_report_is_expected_minus_matched ord1 ord2 s :
  range_order ord1 → range_order ord2 → reachable s →
  let report := Mismatches (sessionMismatches ord1 ord2 s) in
  report ≡ₚ spec_mismatches s ∧
  NoDup report ∧
  length report
    = size (dom (interactions s) ∖ list_to_set (matchedInteractions s) : gset string) ∧
  (∀ d, d ∈ report ↔
        ∃ k, d = {| Actual := ""; Expected := k;
                    Mismatch := "expected message '" +:+ k +:+ "', but got none" |}
             ∧ k ∈ dom (interactions s) ∧ k ∉ matchedInteractions s) ∧
  (∀ k d, k ∈ matchedInteractions s → d ∈ report → Expected d ≠ k) ∧
  (∀ k, k ∈ matchedInteractions s →
        Mismatches (sessionMismatches ord1 ord2 (record_match k s)) ≡ₚ report).
Proof.
  intros H1 H2 Hreach report.
  pose proof (reachable_keyed s Hreach) as Hk.
  assert (Hspec : report ≡ₚ spec_mismatches s)
    by (by apply sessionMismatches_spec).
  assert (Hin : ∀ d, d ∈ report ↔ d ∈ spec_mismatches s)
    by (intros d; by rewrite Hspec).
  split; [exact Hspec|]. split; [|split; [|split; [|split]]].
  - rewrite Hspec. apply spec_mismatches_NoDup.
  - rewrite Hspec. unfold spec_mismatches. by rewrite length_fmap.
  - intros d. rewrite Hin. apply elem_of_spec_mismatches.
  - intros k d Hmatched Hd%Hin%elem_of_spec_mismatches.
    destruct Hd as (k' & -> & _ & Hk'). simpl. by intros ->.
  - intros k Hmatched. rewrite Hspec.
    rewrite sessionMismatches_spec by done.
    unfold spec_mismatches; simpl.
    replace (list_to_set (matchedInteractions s ++ [k]) : gset string)
      with (list_to_set (matchedInteractions s) : gset string); [done|].
    rewrite list_to_set_app_L. simpl.
    apply (elem_of_list_to_set (C := gset string)) in Hmatched.
    clear -Hmatched. set_solver.
Qed.

Lemma C2_report_witness :
  reachable ping_session ∧
  Mismatches (sessionMismatches same_order same_order ping_session) ≡ₚ spec_mismatches ping_session.
Proof.
  split; [exact reachable_ping_session|].
  exact (proj1 (C2_report_is_expected_minus_matched
                  same_order same_order ping_session
                  range_order_same range_order_same reachable_ping_session)).
Defined.

(** *** C3 *)

(** C3.  On a message read without error (or at end of input),
    [handleRequest] looks the trimmed message up, by equality, among the
    keys of the session.  On a hit it appends that key to
    [matchedInteractions] and writes back the stored response, and does so
    again when the same message comes again.  On a miss it writes the
    empty string and leaves the session as it is, so the report is what it
    was and has no entry whose [Expected] is the unmatched message. *)
Theorem C3_matcher_exact_lookup (TrimSpace : string → string) data err s :
  read_ok err →
  let message := TrimSpace data in
  handleRequest TrimSpace data err s = matchRequest message s ∧
  match interactions s !! message with
  | Some i =>
      matchRequest message s = (Response i, record_match message s) ∧
      matchedInteractions (matchRequest message s).2
        = (matchedInteractions s ++ [message])%list ∧
      matchRequest message (matchRequest message s).2
        = (Response i, record_match message (record_match message s))
  | None =>
      matchRequest message s = ("", s) ∧
      (∀ ord1 ord2,
          sessionMismatches ord1 ord2 (matchRequest message s).2
          = sessionMismatches ord1 ord2 s) ∧
      (∀ ord1 ord2 d,
          range_order ord1 → range_order ord2 → reachable s →
          d ∈ Mismatches (sessionMismatches ord1 ord2 (matchRequest message s).2) →
          Expected d ≠ message)
  end.
Proof.
  intros Hok message. split.
  { destruct err; simpl in *; tauto. }
  unfold matchRequest.
  destruct (interactions s !! message) as [i|] eqn:Hlook; simpl.
  - rewrite Hlook. done.
  - split; [done|]. split; [done|].
    intros ord1 ord2 d H1 H2 Hreach Hd Heq.
    rewrite (sessionMismatches_spec ord1 ord2 s H1 H2 (reachable_keyed s Hreach)) in Hd.
    apply elem_of_spec_mismatches in Hd as (k & -> & Hdom & _).
    simpl in Heq; subst k. apply elem_of_dom in Hdom as [v Hv]. congruence.
Qed.

Lemma C3_matcher_witness :
  read_ok NoError ∧
  handleRequest ascii_TrimSpace " PING " NoError ping_session
  = ("PONG", record_match "PING" ping_session).
Proof.
  split; [exact I|].
  pose proof (C3_matcher_exact_lookup ascii_TrimSpace " PING " NoError
                ping_session I) as [Hhandle Hmatch].
  rewrite Hhandle. vm_compute. reflexivity.
Defined.

(** *** C4 *)

(** C4, as stated, fails: after [PING] is loaded and matched, loading a
    table without [PING] leaves [matchedInteractions = ["PING"]] outside
    the keys. *)
Lemma C4_reload_breaks_containment :
  reachable reloaded_session ∧ ¬ matched_subset_expected reloaded_session.
Proof.
  split.
  - exists "s1", 50000.
    eapply rtc_l; [apply (step_load [ping])|].
    eapply rtc_l; [apply (step_handle ascii_TrimSpace "PING" NoError)|].
    apply rtc_once. apply (step_load [hello]).
  - intros Hsub. specialize (Hsub "PING").
    assert (Hin : "PING" ∈ matchedInteractions reloaded_session).
    { vm_compute. apply list_elem_of_here. }
    apply Hsub in Hin. apply elem_of_dom in Hin as [v Hv].
    vm_compute in Hv. discriminate.
Qed.

(** C4, amended.  [matchedInteractions] stays within the keys of
    [interactions] along every run of a session in which each load has a
    key for every message matched so far (loads before any match, repeated
    or not, are such).  A handler appends nothing but the key it has just
    found in the map. *)
Theorem C4_containment_under_covering_loads i p s :
  rtc covered_step (new_session i p) s →
  matched_subset_expected s ∧
  (∀ TrimSpace data err,
      matched_subset_expected (handleRequest TrimSpace data err s).2) ∧
  (∀ message,
      (matchRequest message s).2 = s ∨
      (message ∈ dom (interactions s) ∧
       (matchRequest message s).2 = record_match message s)) ∧
  (∀ req, matchedInteractions s = [] → matched_subset_expected (load req s)).
Proof.
  intros Hrun.
  assert (Hs : matched_subset_expected s).
  { assert (Hstart : matched_subset_expected (new_session i p))
      by apply new_session_subset.
    revert Hstart. induction Hrun as [|x y z Hstep _ IH]; [done|].
    intros Hx. apply IH. destruct Hstep as [req x Hcov|ts data err x].
    - by apply load_subset.
    - by apply handleRequest_subset. }
  split; [exact Hs|]. split; [|split].
  - intros ts data err. by apply handleRequest_subset.
  - intros message. unfold matchRequest.
    destruct (interactions s !! message) as [r|] eqn:Hlook; simpl; [|by left].
    right. split; [|done]. apply elem_of_dom; eauto.
  - intros req Hnone. apply load_subset. rewrite Hnone.
    by intros k ?%elem_of_nil.
Qed.

Lemma C4_containment_witness :
  rtc covered_step (new_session "s1" 50000)
      (handleRequest ascii_TrimSpace "PING" NoError ping_session).2 ∧
  matched_subset_expected (handleRequest ascii_TrimSpace "PING" NoError ping_session).2.
Proof.
  assert (Hrun : rtc covered_step (new_session "s1" 50000)
                   (handleRequest ascii_TrimSpace "PING" NoError ping_session).2).
  { eapply rtc_l.
    - apply (covered_load [ping]). simpl. by intros k ?%elem_of_nil.
    - apply rtc_once. apply (covered_handle ascii_TrimSpace "PING" NoError). }
  split; [exact Hrun|].
  exact (proj1 (C4_containment_under_covering_loads _ _ _ Hrun)).
Defined.
End PluginSocketFacts.

(** ** The native bindings and the plugin provider *)
Section ProviderFacts.
Import World V3.

Implicit Types (env : Env) (p : PluginProvider) (h : list call).

Lemma times_snoc c c' h :
  times c (h ++ [c']) = (times c h + if decide (c' = c) then 1 else 0)%nat.
Proof.
  unfold times. rewrite filter_app, length_app. f_equal.
  rewrite filter_cons, filter_nil. by destruct (decide (c' = c)).
Qed.

(** Unfolds a run of [ExecuteTest] and splits on every answer it reads. *)
Ltac run_ExecuteTest env cb p :=
  unfold ExecuteTest, poll, Native.CreatePluginMockServer,
    Native.AddPluginInteractions, Native.VerifyPlugin,
    Native.PluginMockServerMismatchedRequests, WritePact, Return in *;
  simpl in *;
  destruct (waitForPort env _ _ _ _ _) as [wait_err|] eqn:Hwait; simpl in *;
  [| destruct (Native.json_Marshal (engine env) (Interactions p))
       as [payload|marshal_err] eqn:Hmarshal; simpl in *;
     [ destruct (cb _ (Interactions p)) as [[test_err|] added] eqn:Htest;
       simpl in *;
       [| destruct (Native.json_Unmarshal (engine env) _)
            as [mismatched|parse_err] eqn:Hparse; simpl in *;
          [ destruct (Native.C_int (Native.plugin_mock_server_matched
                                      (engine env) _) =? 1)%Z eqn:Hmatched;
            simpl in * |] ] |] ].

Ltac count_calls :=
  unfold Native.CleanupPluginMockServer, cleanInteractions; simpl;
  repeat rewrite times_snoc;
  repeat match goal with
         | |- context [decide (?a = ?b)] =>
             destruct (decide (a = b)); try discriminate; try congruence
         end;
  try lia.

(** *** C1 *)

(** C1.  Two runs in which the interactions outlive [ExecuteTest].  When
    the plugin does not come up in time, and when the interactions cannot
    be marshalled, the engine is cleaned up once but [cleanInteractions]
    does not run: the pending interaction is still there on return. *)
Theorem C1_early_exit_keeps_interactions :
  let late := ExecuteTest timeout_env passing_test pending_provider [] in
  let unsent := ExecuteTest unmarshalable_env passing_test pending_provider [] in
  (late.1.1 = Some (timeout_message 50123) ∧
   Interactions late.1.2 = [Any 0] ∧
   times cleanInteractions_call late.2 = 0%nat ∧
   times (cleanup_plugin_mock_server_call 50123) late.2 = 1%nat) ∧
  (unsent.1.1 = Some "json: unsupported type: chan int" ∧
   Interactions unsent.1.2 = [Any 0] ∧
   times cleanInteractions_call unsent.2 = 0%nat ∧
   times (cleanup_plugin_mock_server_call 50123) unsent.2 = 1%nat).
Proof. vm_compute. repeat split; reflexivity. Qed.

(** On every run of [ExecuteTest] the engine's clean-up for the admin port
    is called exactly once and the configuration is left as it was.  On
    every run in which the plugin comes up and the interactions are
    marshalled, whatever the test function and the verification give,
    [cleanInteractions] runs exactly once and the provider's interaction
    list is empty on return. *)
Lemma ExecuteTest_cleanup_and_reset env (cb : test_func) p h :
  let port := Port (config p) in
  let out := ExecuteTest env cb p h in
  times (cleanup_plugin_mock_server_call (Native.C_int port)) out.2
    = (times (cleanup_plugin_mock_server_call (Native.C_int port)) h + 1)%nat ∧
  config out.1.2 = config p ∧
  (poll env port = None →
   (∃ b, Native.json_Marshal (engine env) (Interactions p) = inl b) →
   times cleanInteractions_call out.2 = (times cleanInteractions_call h + 1)%nat ∧
   Interactions out.1.2 = []).
Proof.
  intros port out. subst out port.
  run_ExecuteTest env cb p;
    (split; [count_calls | split; [reflexivity|]]);
    intros Hpoll [b Hb]; try discriminate;
    (split; [count_calls | reflexivity]).
Qed.

Example ExecuteTest_cleanup_and_reset_ready :
  let out := ExecuteTest ready_env passing_test pending_provider [] in
  times cleanInteractions_call out.2 = 1%nat ∧ Interactions out.1.2 = [].
Proof.
  exact (proj2 (proj2 (ExecuteTest_cleanup_and_reset
                         ready_env passing_test pending_provider []))
           eq_refl (ex_intro _ "{interactions}" eq_refl)).
Qed.

(** *** C5 *)

(** C5, as stated, fails: the engine reports a match together with one
    mismatch, and [ExecuteTest] returns no error. *)
Lemma C5_mismatch_without_error :
  let verified := (Native.VerifyPlugin (engine ready_env) 50123 []).1 in
  verified.1 = true ∧
  Native.Mismatches verified.2 ≠ [] ∧
  (ExecuteTest ready_env passing_test pending_provider []).1.1 = None.
Proof. vm_compute. repeat split; [discriminate]. Qed.

(** C5, amended.  Once the plugin is up, the interactions are marshalled
    and the test function has returned no error, [ExecuteTest] returns the
    error "pact validation failed: ..." carrying the result and the
    mismatches of [VerifyPlugin] exactly when that result is [false], that
    is when the engine's code is not 1 or its mismatch text does not
    parse; mismatches reported next to a positive result raise no error.
    When the error is returned [WritePact] is not called; otherwise it is
    called once and [ExecuteTest] returns what it returns. *)
Theorem C5_error_iff_result_negative env (cb : test_func) p h b left :
  let port := Port (config p) in
  let cfg := {| MockPort := Native.C_int (Native.create_plugin_mock_server
                                           (engine env) (Native.C_int port) "test");
                MockHost := Host (config p);
                TLSConfig := GetTLSConfigForTLSMockServer env |} in
  poll env port = None →
  Native.json_Marshal (engine env) (Interactions p) = inl b →
  cb cfg (Interactions p) = (None, left) →
  let verified := (Native.VerifyPlugin (engine env) port []).1 in
  let out := ExecuteTest env cb p h in
  (verified.1 = false ↔
     Native.C_int (Native.plugin_mock_server_matched (engine env) (Native.C_int port)) ≠ 1
     ∨ ∃ e, Native.json_Unmarshal (engine env)
              (Native.plugin_mock_server_mismatches (engine env) (Native.C_int port))
            = inr e) ∧
  (verified.1 = false →
     out.1.1 = Some (validation_failed false verified.2) ∧
     times WritePact_call out.2 = times WritePact_call h) ∧
  (verified.1 = true →
     out.1.1 = None ∧
     times WritePact_call out.2 = (times WritePact_call h + 1)%nat).
Proof.
  intros port cfg Hpoll Hb Hcb verified out. subst out verified cfg port.
  run_ExecuteTest env cb p; try discriminate.
  - split; [|split].
    + split; [discriminate|]. intros [Hne | [e He]]; [|discriminate].
      apply Z.eqb_eq in Hmatched. contradiction.
    + discriminate.
    + intros _. split; [reflexivity | count_calls].
  - split; [|split].
    + split; [|reflexivity]. intros _. left. by apply Z.eqb_neq.
    + intros _. split; [reflexivity | count_calls].
    + discriminate.
  - split; [|split].
    + split; [|reflexivity]. intros _. right. eauto.
    + intros _. split; [reflexivity | count_calls].
    + discriminate.
Qed.

Lemma C5_error_iff_result_witness :
  poll ready_env 50123 = None ∧
  ((Native.VerifyPlugin (engine ready_env) 50123 []).1.1 = true →
   (ExecuteTest ready_env passing_test pending_provider []).1.1 = None ∧
   times WritePact_call (ExecuteTest ready_env passing_test pending_provider []).2
   = 1%nat).
Proof.
  split; [reflexivity|].
  exact (proj2 (proj2 (C5_error_iff_result_negative
                         ready_env passing_test pending_provider []
                         "{interactions}" [Any 0] eq_refl eq_refl eq_refl))).
Defined.

(** *** C6 *)

(** C6.  [WritePact] returns [nil] and calls nothing: neither it nor a
    whole run of [ExecuteTest] makes a call to [write_pact_file] or to
    [plugin_write_pact_file], the pact-writing operations of the engine,
    whereas [native.WritePactFile] makes one.  Calling [WritePact] again
    gives the same answer. *)
Theorem C6_WritePact_reaches_no_writer env (cb : test_func) p h port dir :
  (WritePact p h).1 = None ∧
  times (write_pact_file_call port dir) (WritePact p h).2
    = times (write_pact_file_call port dir) h ∧
  times (plugin_write_pact_file_call port dir) (WritePact p h).2
    = times (plugin_write_pact_file_call port dir) h ∧
  (WritePact p (WritePact p h).2).1 = (WritePact p h).1 ∧
  times (write_pact_file_call port dir) (ExecuteTest env cb p h).2
    = times (write_pact_file_call port dir) h ∧
  times (plugin_write_pact_file_call port dir) (ExecuteTest env cb p h).2
    = times (plugin_write_pact_file_call port dir) h ∧
  times (write_pact_file_call (Native.C_int port) dir)
        (Native.WritePactFile (engine env) port dir h).2
    = (times (write_pact_file_call (Native.C_int port) dir) h + 1)%nat.
Proof.
  split; [reflexivity|]. split; [unfold WritePact; count_calls|].
  split; [unfold WritePact; count_calls|]. split; [reflexivity|].
  split; [|split].
  - run_ExecuteTest env cb p; count_calls.
  - run_ExecuteTest env cb p; count_calls.
  - unfold Native.WritePactFile; count_calls.
Qed.

(** *** C9 *)

(** C9.  [CreatePluginMockServer] returns a [nil] error whatever the port,
    the command and the engine's answer, and returns that answer as the
    port.  So [ExecuteTest] never returns at its first check: every run
    goes on to the readiness poll, and a test function that is reached is
    given the engine's answer as its port. *)
Theorem C9_start_never_fails env (cb : test_func) p h port cmd :
  (Native.CreatePluginMockServer (engine env) port cmd h).1
  = (Native.C_int (Native.create_plugin_mock_server (engine env)
                                                    (Native.C_int port) cmd),
     None) ∧
  (∃ rest,
      (ExecuteTest env cb p h).2
      = (h ++ [create_plugin_mock_server_call (Native.C_int (Port (config p))) "test";
               waitForPort_call (Port (config p)) "tcp" "localhost" ten_seconds
                                (timeout_message (Port (config p)))]
           ++ rest)%list) ∧
  (∀ client host,
      times (integrationTest_call client host) h = 0%nat →
      times (integrationTest_call client host) (ExecuteTest env cb p h).2 ≠ 0%nat →
      client = Native.C_int (Native.create_plugin_mock_server
                               (engine env) (Native.C_int (Port (config p))) "test")).
Proof.
  split; [reflexivity|]. split.
  - run_ExecuteTest env cb p;
      unfold Native.CleanupPluginMockServer, cleanInteractions; simpl;
      repeat rewrite <- app_assoc; simpl; eexists; reflexivity.
  - intros client host Hnone.
    run_ExecuteTest env cb p;
      unfold Native.CleanupPluginMockServer, cleanInteractions; simpl;
      repeat rewrite times_snoc; rewrite Hnone;
      repeat match goal with
             | |- context [decide (?a = ?b)] =>
                 destruct (decide (a = b)) as [?|?]; try discriminate
             end; simpl; intros Hcalled;
      try (exfalso; apply Hcalled; reflexivity);
      match goal with
      | Hsame : integrationTest_call _ _ = integrationTest_call _ _ |- _ =>
          injection Hsame; congruence
      end.
Qed.

Lemma C9_start_never_fails_witness :
  (Native.CreatePluginMockServer failing_engine 50123 "test" []).1 = (-3, None).
Proof.
  exact (proj1 (C9_start_never_fails
                  {| engine := failing_engine; waitForPort := λ _ _ _ _ _, None;
                     GetTLSConfigForTLSMockServer := "" |}
                  passing_test pending_provider [] 50123 "test")).
Defined.

(** *** C10 *)

(** C10.  [AddPluginInteractions] returns an error exactly when
    [json.Marshal] fails, and then that error.  The code the engine
    returns for the load is not read: with any other answer in its place
    [AddPluginInteractions] and [ExecuteTest] give the same result. *)
Theorem C10_load_error_iff_marshal_fails env (cb : test_func) p h port
    (interactions : list any) (f : Z → string → Z) :
  (Native.AddPluginInteractions (engine env) port interactions h).1
  = match Native.json_Marshal (engine env) interactions with
    | inr err => Some err
    | inl _ => None
    end ∧
  (is_Some (Native.AddPluginInteractions (engine env) port interactions h).1 ↔
   ∃ err, Native.json_Marshal (engine env) interactions = inr err) ∧
  Native.AddPluginInteractions
    (Native.with_add_plugin_interaction f (engine env)) port interactions h
  = Native.AddPluginInteractions (engine env) port interactions h ∧
  ExecuteTest (with_add_answer f env) cb p h = ExecuteTest env cb p h.
Proof.
  split; [|split; [|split]].
  - unfold Native.AddPluginInteractions.
    by destruct (Native.json_Marshal (engine env) interactions).
  - unfold Native.AddPluginInteractions.
    destruct (Native.json_Marshal (engine env) interactions) as [b|e]; simpl.
    + split; [by intros ?%is_Some_None | by intros [e ?]].
    + split; eauto.
  - reflexivity.
  - reflexivity.
Qed.

Lemma C10_load_error_witness :
  ExecuteTest (with_add_answer (λ _ _, -1) ready_env) passing_test pending_provider []
  = ExecuteTest ready_env passing_test pending_provider [].
Proof.
  exact (proj2 (proj2 (proj2 (C10_load_error_iff_marshal_fails
           ready_env passing_test pending_provider [] 50123 [] (λ _ _, -1))))).
Defined.
End ProviderFacts.

(** ** The admin API of the plugin socket server *)
Section AdminFacts.
Import PluginSocket.

(** C8.  For a request that binds, [createSession] stores a new session
    with the port it was given under the identifier it was given, at a
    pointer not in use, sends it to the listener, and answers 200 with
    that identifier and that port.  The [adminPort] of the answer is never
    set: it is 0 and not 4444, the port the admin API is served on. *)
Theorem C8_createSession_leaves_adminPort_zero free_port uuid srv :
  let out := createSession true free_port uuid srv in
  let ptr := fresh (dom (heap srv)) in
  out.1 = Some (StatusOK, {| ID := uuid; Port := free_port; AdminPort := 0 |}) ∧
  heap srv !! ptr = None ∧
  sessions out.2 !! uuid = Some ptr ∧
  heap out.2 !! ptr = Some (new_session uuid free_port) ∧
  tcpSessions out.2 = (tcpSessions srv ++ [ptr])%list ∧
  (∀ status r, out.1 = Some (status, r) → AdminPort r = 0 ∧ AdminPort r ≠ adminPort).
Proof.
  intros out ptr. subst out ptr. simpl.
  split; [reflexivity|]. split.
  { apply not_elem_of_dom. apply is_fresh. }
  split; [apply lookup_insert_eq|]. split; [apply lookup_insert_eq|].
  split; [reflexivity|].
  intros status r [= _ <-]. simpl. split; [reflexivity | discriminate].
Qed.
End AdminFacts.

(** ** The configuration of the plugin provider *)
Section ConfigFacts.
Import World V3.

Implicit Types (pf : Platform) (p : PluginProvider).

Lemma is_empty_true s : is_empty s = true ↔ s = "".
Proof. destruct s; simpl; split; congruence. Qed.

Lemma is_empty_false s : is_empty s = false ↔ s ≠ "".
Proof. destruct s; simpl; split; congruence. Qed.

(** What [validateConfig] leaves in each field. *)
Lemma validateConfig_fields pf p :
  let c := config p in
  let c' := config (validateConfig pf p).2 in
  Host c' = (if is_empty (Host c) then "127.0.0.1" else Host c) ∧
  LogDir c' = (if is_empty (LogDir c)
               then Sprintf pf (Join pf (Getwd pf) "logs") else LogDir c) ∧
  PactDir c' = (if is_empty (PactDir c)
                then Sprintf pf (Join pf (Getwd pf) "pacts") else PactDir c) ∧
  Port c' = (if (Port c <=? 0)%Z then (GetFreePort pf).1 else Port c) ∧
  Consumer c' = Consumer c ∧ Provider c' = Provider c ∧
  Interactions (validateConfig pf p).2 = Interactions p.
Proof.
  destruct p as [[cn pr lg pd ho po] ints]. unfold validateConfig; simpl.
  destruct ho, lg, pd; simpl; destruct (po <=? 0)%Z; simpl;
    destruct (GetFreePort pf) as [fp [e|]]; simpl; repeat split; reflexivity.
Qed.

(** [validateConfig] fails exactly when it asks for a free port and gets
    none. *)
Lemma validateConfig_error pf p :
  (validateConfig pf p).1
  = if (Port (config p) <=? 0)%Z
    then match (GetFreePort pf).2 with
         | Some _ =>
             Some "error: unable to find free port, mock server will fail to start"
         | None => None
         end
    else None.
Proof.
  destruct p as [[cn pr lg pd ho po] ints]. unfold validateConfig; simpl.
  destruct ho, lg, pd; simpl; destruct (po <=? 0)%Z; simpl;
    destruct (GetFreePort pf) as [fp [e|]]; reflexivity.
Qed.

Lemma no_percent_app s1 s2 :
  no_percent (s1 +:+ s2) = no_percent s1 && no_percent s2.
Proof.
  induction s1 as [|c s1 IH]; simpl; [reflexivity|].
  rewrite IH. by rewrite andb_assoc.
Qed.

(** In a working directory without ["%"] that [Join] extends by a slash
    and the name, the two directories default to [<cwd>/logs] and
    [<cwd>/pacts]. *)
Lemma validateConfig_cwd_defaults pf p :
  library_laws pf →
  no_percent (Getwd pf) = true →
  Join pf (Getwd pf) "logs" = Getwd pf +:+ "/logs" →
  Join pf (Getwd pf) "pacts" = Getwd pf +:+ "/pacts" →
  let c' := config (validateConfig pf p).2 in
  (LogDir (config p) = "" → LogDir c' = Getwd pf +:+ "/logs") ∧
  (PactDir (config p) = "" → PactDir c' = Getwd pf +:+ "/pacts").
Proof.
  intros Hlaws Hcwd Hjoin1 Hjoin2 c'. subst c'.
  destruct (validateConfig_fields pf p) as (_ & Hlog & Hpact & _).
  rewrite Hlog, Hpact, Hjoin1, Hjoin2.
  split; intros ->; simpl; apply (Sprintf_literal pf Hlaws);
    rewrite no_percent_app, Hcwd; reflexivity.
Qed.

(** Validating a validated configuration, in whatever environment, changes
    nothing and succeeds. *)
Lemma validateConfig_idempotent pf pf' p :
  library_laws pf →
  (validateConfig pf p).1 = None →
  validateConfig pf' (validateConfig pf p).2 = (None, (validateConfig pf p).2).
Proof.
  intros Hlaws Hok.
  destruct (validateConfig_fields pf p)
    as (Hhost & Hlog & Hpact & Hport & _ & _ & _).
  rewrite validateConfig_error in Hok.
  set (p1 := (validateConfig pf p).2) in *.
  assert (H1 : is_empty (Host (config p1)) = false).
  { rewrite Hhost. by destruct (is_empty (Host (config p))) eqn:E. }
  assert (H2 : is_empty (LogDir (config p1)) = false).
  { rewrite Hlog. destruct (is_empty (LogDir (config p))) eqn:E; [|done].
    apply is_empty_false, (Sprintf_nonempty pf Hlaws), (Join_nonempty pf Hlaws).
    discriminate. }
  assert (H3 : is_empty (PactDir (config p1)) = false).
  { rewrite Hpact. destruct (is_empty (PactDir (config p))) eqn:E; [|done].
    apply is_empty_false, (Sprintf_nonempty pf Hlaws), (Join_nonempty pf Hlaws).
    discriminate. }
  assert (H4 : (Port (config p1) <=? 0)%Z = false).
  { rewrite Hport. destruct (Port (config p) <=? 0)%Z eqn:E; [|done].
    apply Z.leb_gt, (GetFreePort_positive pf Hlaws).
    by destruct (GetFreePort pf).2. }
  unfold validateConfig. rewrite H1, H2, H3, H4.
  by destruct p1 as [[] ?].
Qed.

(** The reference functions obey the laws. *)
Lemma Sprintf_plain_literal s : no_percent s = true → Sprintf_plain s = s.
Proof.
  induction s as [|c s IH]; simpl; [done|].
  destruct (Ascii.eqb c "%"); simpl; [done|]. intros Hs. by rewrite IH.
Qed.

Lemma plain_verb_not_percent c : plain_verb c = true → Ascii.eqb c "%" = false.
Proof.
  unfold plain_verb. intros [_ Hc]%andb_true_iff. simpl in Hc.
  by destruct (Ascii.eqb c "%").
Qed.

Lemma Sprintf_plain_missing pre c rest :
  no_percent pre = true → plain_verb c = true →
  Sprintf_plain (pre +:+ String "%" (String c rest))
  = pre +:+ "%!" +:+ String c "(MISSING)" +:+ Sprintf_plain rest.
Proof.
  intros Hpre Hc%plain_verb_not_percent.
  induction pre as [|a pre IH]; simpl in *.
  - by rewrite Hc.
  - destruct (Ascii.eqb a "%"); simpl in *; [done|]. by rewrite IH.
Qed.

Lemma Sprintf_plain_nonempty s : s ≠ "" → Sprintf_plain s ≠ "".
Proof.
  destruct s as [|c s]; [done|]. intros _. simpl.
  destruct (Ascii.eqb c "%"); [|done].
  destruct s as [|v s]; [done|]. by destruct (Ascii.eqb v "%").
Qed.

Lemma reference_laws wd port :
  0 < port →
  library_laws {| Getwd := wd; Join := Join_clean; Sprintf := Sprintf_plain;
                  GetFreePort := (port, None) |}.
Proof.
  intros Hport. split; simpl.
  - apply Sprintf_plain_literal.
  - apply Sprintf_plain_missing.
  - apply Sprintf_plain_nonempty.
  - intros d e He. unfold Join_clean. destruct d; simpl; [done | discriminate].
  - done.
Qed.

(** *** C7 *)

(** C7.  [validateConfig] gives the joined path to [fmt.Sprintf] as its
    format.  In the working directory [/tmp/100%], which [filepath.Join]
    extends to [/tmp/100%/logs] and [/tmp/100%/pacts], an empty [LogDir]
    becomes [/tmp/100%!/(MISSING)logs] and an empty [PactDir]
    [/tmp/100%!/(MISSING)pacts]: neither is [<cwd>/logs] or
    [<cwd>/pacts]. *)
Theorem C7_percent_in_cwd_garbles_defaults pf p :
  library_laws pf →
  Getwd pf = "/tmp/100%" →
  Join pf "/tmp/100%" "logs" = "/tmp/100%/logs" →
  Join pf "/tmp/100%" "pacts" = "/tmp/100%/pacts" →
  LogDir (config p) = "" → PactDir (config p) = "" →
  let c' := config (validateConfig pf p).2 in
  LogDir c' = "/tmp/100%!/(MISSING)logs" ∧
  PactDir c' = "/tmp/100%!/(MISSING)pacts" ∧
  LogDir c' ≠ Getwd pf +:+ "/logs" ∧
  PactDir c' ≠ Getwd pf +:+ "/pacts".
Proof.
  intros Hlaws Hcwd Hjoin1 Hjoin2 Hlog Hpact c'. subst c'.
  destruct (validateConfig_fields pf p) as (_ & Hl & Hp & _).
  rewrite Hlog in Hl. rewrite Hpact in Hp. simpl in Hl, Hp.
  rewrite Hcwd, Hjoin1 in Hl. rewrite Hcwd, Hjoin2 in Hp.
  assert (Hmissing : ∀ name, no_percent name = true →
            Sprintf pf ("/tmp/100%/" +:+ name) = "/tmp/100%!/(MISSING)" +:+ name).
  { intros name Hname.
    rewrite <- (Sprintf_literal pf Hlaws name Hname) at 2.
    exact (Sprintf_missing pf Hlaws "/tmp/100" "/" name eq_refl eq_refl). }
  assert (Hl' : LogDir (config (validateConfig pf p).2) = "/tmp/100%!/(MISSING)logs").
  { rewrite Hl. exact (Hmissing "logs" eq_refl). }
  assert (Hp' : PactDir (config (validateConfig pf p).2) = "/tmp/100%!/(MISSING)pacts").
  { rewrite Hp. exact (Hmissing "pacts" eq_refl). }
  rewrite Hl', Hp', Hcwd. repeat split; discriminate.
Qed.

Lemma C7_percent_in_cwd_witness :
  library_laws percent_platform ∧
  LogDir (config (validateConfig percent_platform
                    {| config := empty_config; Interactions := [] |}).2)
  = "/tmp/100%!/(MISSING)logs".
Proof.
  assert (Hlaws : library_laws percent_platform)
    by (apply reference_laws; reflexivity).
  split; [exact Hlaws|].
  exact (proj1 (C7_percent_in_cwd_garbles_defaults percent_platform
                  {| config := empty_config; Interactions := [] |}
                  Hlaws eq_refl eq_refl eq_refl eq_refl eq_refl)).
Defined.
End ConfigFacts.

(** ** More on the sessions of the plugin socket server *)
Section SessionFacts.
Import PluginSocket.

Implicit Types (s : session) (m : gmap string interaction).

Lemma load_loop_lookup req m k :
  fold_left (λ acc v, <[Message v := v]> acc) req m !! k
  = match last (filter (λ i, Message i = k) req) with
    | Some i => Some i
    | None => m !! k
    end.
Proof.
  revert m. induction req as [|i req IH]; intros m; simpl; [done|].
  rewrite IH, filter_cons.
  destruct (decide (Message i = k)) as [Hk|Hk].
  - rewrite last_cons.
    destruct (last (filter (λ i0, Message i0 = k) req)); [done|].
    by rewrite Hk, lookup_insert_eq.
  - destruct (last (filter (λ i0, Message i0 = k) req)); [done|].
    by rewrite lookup_insert_ne.
Qed.

(** X1.  After a load the table holds, under each message, the last
    interaction of the request with that message, and nothing else: what
    was loaded before is gone. *)
Theorem load_last_wins req s k :
  interactions (load req s) !! k = last (filter (λ i, Message i = k) req).
Proof.
  simpl. rewrite load_loop_lookup, lookup_empty.
  by destruct (last (filter (λ i, Message i = k) req)).
Qed.

Lemma matchRequest_after_load message req s :
  matchRequest message (load req s)
  = match last (filter (λ i, Message i = message) req) with
    | Some i => (Response i, record_match message (load req s))
    | None => ("", load req s)
    end.
Proof.
  unfold matchRequest.
  change (interactions (load req s) !! message)
    with (fold_left (λ acc v, <[Message v := v]> acc) req
                    (∅ : gmap string interaction) !! message).
  rewrite load_loop_lookup, lookup_empty.
  by destruct (last (filter (λ i, Message i = message) req)).
Qed.

Lemma handleRequest_read_ok ts data err s :
  read_ok err → handleRequest ts data err s = matchRequest (ts data) s.
Proof. destruct err; simpl; tauto. Qed.

(** X2.  A message that arrives after a load is answered with the
    response of the last interaction loaded for it and is recorded; a
    message the request did not have is answered with the empty string and
    the session stays as the load left it. *)
Theorem handleRequest_after_load (TrimSpace : string → string) data err req s :
  read_ok err →
  handleRequest TrimSpace data err (load req s)
  = match last (filter (λ i, Message i = TrimSpace data) req) with
    | Some i => (Response i, record_match (TrimSpace data) (load req s))
    | None => ("", load req s)
    end.
Proof.
  intros Hok. rewrite handleRequest_read_ok by done.
  apply matchRequest_after_load.
Qed.

Lemma handleRequest_after_load_witness :
  read_ok EOF ∧
  handleRequest ascii_TrimSpace "PING" EOF
                (load [ping; hello] (new_session "s1" 50000))
  = ("PONG", record_match "PING" (load [ping; hello] (new_session "s1" 50000))).
Proof.
  split; [exact I|].
  exact (handleRequest_after_load ascii_TrimSpace "PING" EOF [ping; hello]
           (new_session "s1" 50000) I).
Defined.

Lemma session_step_grows s s' :
  session_step s s' →
  matchedInteractions s `prefix_of` matchedInteractions s' ∧
  id s' = id s ∧ port s' = port s.
Proof.
  destruct 1 as [req s|ts data err s]; simpl; [done|].
  destruct err; simpl; try done; unfold matchRequest;
    destruct (interactions s !! ts data); simpl; split; try done;
    by apply prefix_app_r.
Qed.

(** X3.  Whatever is loaded and whatever arrives, a session keeps its
    identifier and its port, and its record of matches only grows at the
    end: no load and no message removes or reorders a recorded match. *)
Theorem matches_append_only s s' :
  rtc session_step s s' →
  matchedInteractions s `prefix_of` matchedInteractions s' ∧
  id s' = id s ∧ port s' = port s.
Proof.
  induction 1 as [s|s1 s2 s3 Hstep _ IH]; [done|].
  destruct (session_step_grows _ _ Hstep) as (Hp & Hi & Hq).
  destruct IH as (Hp' & Hi' & Hq'). split; [by etrans|]. split; congruence.
Qed.

Lemma matches_append_only_witness :
  rtc session_step ping_session reloaded_session ∧
  matchedInteractions ping_session `prefix_of` matchedInteractions reloaded_session.
Proof.
  assert (Hrun : rtc session_step ping_session reloaded_session).
  { eapply rtc_l; [apply (step_handle ascii_TrimSpace "PING" NoError)|].
    apply rtc_once. apply (step_load [hello]). }
  split; [exact Hrun|]. exact (proj1 (matches_append_only _ _ Hrun)).
Defined.

(** X4.  The report of a session the server can hold is empty exactly
    when every expected message has been matched. *)
Theorem report_empty_iff_all_matched ord1 ord2 s :
  range_order ord1 → range_order ord2 → reachable s →
  Mismatches (sessionMismatches ord1 ord2 s) = [] ↔
  ∀ k, k ∈ dom (interactions s) → k ∈ matchedInteractions s.
Proof.
  intros H1 H2 Hreach.
  pose proof (sessionMismatches_spec ord1 ord2 s H1 H2 (reachable_keyed s Hreach))
    as Hspec.
  split.
  - intros Hnil k Hk. destruct (decide (k ∈ matchedInteractions s)); [done|].
    assert (Hin : detail_of_key k ∈ spec_mismatches s)
      by (apply elem_of_spec_mismatches; eauto).
    rewrite <- Hspec, Hnil in Hin. by apply elem_of_nil in Hin.
  - intros Hall.
    destruct (Mismatches (sessionMismatches ord1 ord2 s)) as [|d l] eqn:Hrep; [done|].
    assert (Hin : d ∈ spec_mismatches s) by (rewrite <- Hspec; apply list_elem_of_here).
    apply elem_of_spec_mismatches in Hin as (k & _ & Hk & Hnot).
    by apply Hall in Hk.
Qed.

Lemma report_empty_witness :
  reachable (handleRequest ascii_TrimSpace "PING" NoError ping_session).2 ∧
  Mismatches (sessionMismatches same_order same_order
                (handleRequest ascii_TrimSpace "PING" NoError ping_session).2) = [].
Proof.
  assert (Hreach : reachable (handleRequest ascii_TrimSpace "PING" NoError ping_session).2).
  { exists "s1", 50000.
    eapply rtc_l; [apply (step_load [ping])|].
    apply rtc_once. apply (step_handle ascii_TrimSpace "PING" NoError). }
  split; [exact Hreach|].
  apply (proj2 (report_empty_iff_all_matched same_order same_order _
                  range_order_same range_order_same Hreach)).
  intros k Hk. apply elem_of_dom in Hk as [v Hv].
  change (fold_left (λ acc v', <[Message v' := v']> acc) [ping]
                    (∅ : gmap string interaction) !! k = Some v) in Hv.
  rewrite load_loop_lookup in Hv. simpl in Hv. rewrite filter_cons in Hv.
  destruct (decide (Message ping = k)) as [<-|]; [|done].
  apply list_elem_of_here.
Defined.
End SessionFacts.

(** ** The server: registry, listeners and admin handlers *)
Section ServerFacts.
Import PluginSocket.

Implicit Types (s : session) (srv : server).

Lemma handleRequest_id_port ts data err s :
  id (handleRequest ts data err s).2 = id s ∧
  port (handleRequest ts data err s).2 = port s.
Proof.
  destruct (session_step_grows _ _ (step_handle ts data err s)) as (_ & ? & ?).
  done.
Qed.

Lemma new_server_ok : server_ok new_server.
Proof.
  split; simpl.
  - intros i ptr. by rewrite lookup_empty.
  - intros ptr. rewrite dom_empty_L. set_solver.
  - constructor.
  - intros ptr s. by rewrite lookup_empty.
Qed.

Lemma createSession_ok bound free_port uuid srv :
  server_ok srv → server_ok (createSession bound free_port uuid srv).2.
Proof.
  intros [Hreg Hlis Hnd Hkey]. destruct bound; simpl; [|by split].
  set (ptr := fresh (dom (heap srv))).
  assert (Hfresh : ptr ∉ dom (heap srv)) by apply is_fresh.
  split; simpl.
  - intros i q. rewrite lookup_insert. destruct (decide (uuid = i)) as [<-|Hne].
    + intros [= <-]. rewrite lookup_insert_eq. eauto.
    + intros Hq. destruct (Hreg _ _ Hq) as (s & Hs & Hid).
      exists s. split; [|done]. rewrite lookup_insert_ne; [done|].
      intros <-. apply Hfresh, elem_of_dom. eauto.
  - intros q. rewrite elem_of_app, list_elem_of_singleton, dom_insert_L, Hlis.
    set_solver.
  - apply NoDup_app. split; [done|]. split; [|apply NoDup_singleton].
    intros q Hq%Hlis ->%list_elem_of_singleton. by apply Hfresh.
  - intros q s. rewrite lookup_insert. destruct (decide (ptr = q)).
    + intros [= <-]. apply new_session_keyed.
    + apply Hkey.
Qed.

Lemma loadInteractions_ok i json srv :
  server_ok srv → server_ok (loadInteractions i json srv).2.
Proof.
  intros [Hreg Hlis Hnd Hkey]. unfold loadInteractions.
  destruct (sessions srv !! i) as [ptr|]; [|by split].
  destruct json as [req|]; [|by split].
  split; simpl; [| |done|].
  - intros j q Hq. destruct (Hreg _ _ Hq) as (s & Hs & Hid).
    rewrite lookup_alter. destruct (decide (ptr = q)) as [->|].
    + rewrite Hs. simpl. eauto.
    + eauto.
  - intros q. by rewrite dom_alter_L.
  - intros q s. rewrite lookup_alter. destruct (decide (ptr = q)) as [->|].
    + destruct (heap srv !! q); [|done]. intros [= <-]. apply load_keyed.
    + apply Hkey.
Qed.

Lemma serve_ok ts ptr data err srv :
  server_ok srv → server_ok (serve ts ptr data err srv).2.
Proof.
  intros [Hreg Hlis Hnd Hkey]. unfold serve.
  destruct (heap srv !! ptr) as [s0|] eqn:Hptr; [|by split].
  destruct (handleRequest ts data err s0) as [response s1] eqn:Hhandle.
  assert (Hs1 : s1 = (handleRequest ts data err s0).2) by by rewrite Hhandle.
  split; simpl; [| |done|].
  - intros j q Hq. destruct (Hreg _ _ Hq) as (s & Hs & Hid).
    rewrite lookup_insert. destruct (decide (ptr = q)) as [->|]; [|eauto].
    exists s1. split; [done|]. rewrite Hs1.
    rewrite (proj1 (handleRequest_id_port ts data err s0)). congruence.
  - intros q. rewrite dom_insert_L, Hlis.
    assert (ptr ∈ dom (heap srv)) by (apply elem_of_dom; eauto). set_solver.
  - intros q s. rewrite lookup_insert. destruct (decide (ptr = q)) as [->|].
    + intros [= <-]. rewrite Hs1. apply handleRequest_keyed. by eapply Hkey.
    + apply Hkey.
Qed.

Lemma server_ok_run srv srv' :
  server_ok srv → rtc server_step srv srv' → server_ok srv'.
Proof.
  intros Hstart Hrun. revert Hstart.
  induction Hrun as [|x y z Hstep _ IH]; [done|].
  intros Hx. apply IH. destruct Hstep.
  - by apply createSession_ok.
  - by apply loadInteractions_ok.
  - by apply serve_ok.
Qed.

(** X5.  Whatever requests the admin API has served and whatever
    connections the listeners have handled since [startProvider], every
    registered identifier points to a session carrying that identifier,
    the sessions and the listeners started are the same, one listener per
    session, and every table is keyed by its messages. *)
Theorem server_ok_always srv :
  rtc server_step new_server srv → server_ok srv.
Proof. apply server_ok_run, new_server_ok. Qed.

Lemma ping_server_reached : rtc server_step new_server ping_server.
Proof.
  eapply rtc_l; [apply (step_createSession true 50000 "s1")|].
  apply rtc_once. apply (step_loadInteractions "s1" (Some [ping])).
Qed.

Lemma server_ok_always_witness :
  rtc server_step new_server ping_server ∧ server_ok ping_server.
Proof.
  split; [exact ping_server_reached|].
  exact (server_ok_always ping_server ping_server_reached).
Defined.

(** X6.  [loadInteractions] answers 404 for an identifier that is not
    registered and changes nothing then, nor when the body does not bind.
    When it loads, it answers 200 and replaces the table of the session
    registered under the identifier; the registry, the listeners and every
    other session stay as they were. *)
Theorem loadInteractions_touches_one_session i json srv :
  let out := loadInteractions i json srv in
  sessions out.2 = sessions srv ∧
  tcpSessions out.2 = tcpSessions srv ∧
  (∀ q, sessions srv !! i ≠ Some q → heap out.2 !! q = heap srv !! q) ∧
  (sessions srv !! i = None → out = (Some StatusNotFound, srv)) ∧
  (json = None → out.2 = srv) ∧
  (∀ ptr req, sessions srv !! i = Some ptr → json = Some req →
     out.1 = Some StatusOK ∧ heap out.2 !! ptr = load req <$> heap srv !! ptr).
Proof.
  intros out. subst out. unfold loadInteractions.
  destruct (sessions srv !! i) as [ptr|] eqn:Hi; destruct json as [req|]; simpl;
    (split; [reflexivity|]); (split; [reflexivity|]);
    (split; [|split; [|split]]); try done.
  - intros q Hq. rewrite lookup_alter_ne; [done|]. congruence.
  - intros ptr' req' [= <-] [= <-]. by rewrite lookup_alter_eq.
Qed.


(** X8.  On a server reached from [startProvider], [mismatches] answers
    404 exactly for the identifiers that are not registered; for a
    registered one it answers 200 with, up to order, one entry per
    expected message of that session that was never matched. *)
Theorem mismatches_handler ord1 ord2 i srv :
  range_order ord1 → range_order ord2 →
  rtc server_step new_server srv →
  match sessions srv !! i with
  | Some ptr =>
      ∃ s r, heap srv !! ptr = Some s ∧ id s = i ∧
             mismatches ord1 ord2 i srv = (StatusOK, Some r) ∧
             Mismatches r ≡ₚ spec_mismatches s
  | None => mismatches ord1 ord2 i srv = (StatusNotFound, None)
  end.
Proof.
  intros H1 H2 Hrun.
  destruct (server_ok_run _ _ new_server_ok Hrun) as [Hreg _ _ Hkey].
  unfold mismatches.
  destruct (sessions srv !! i) as [ptr|] eqn:Hi; [|done].
  destruct (Hreg _ _ Hi) as (s & Hs & Hid). rewrite Hs.
  exists s, (sessionMismatches ord1 ord2 s). repeat split; try done.
  apply sessionMismatches_spec; eauto.
Qed.

Lemma mismatches_handler_witness :
  rtc server_step new_server ping_server ∧
  (mismatches same_order same_order "nobody" ping_server).1 = StatusNotFound.
Proof.
  split; [exact ping_server_reached|].
  pose proof (mismatches_handler same_order same_order "nobody" ping_server
                range_order_same range_order_same ping_server_reached) as H.
  change (sessions ping_server !! "nobody")
    with (<["s1" := fresh (dom (∅ : gmap nat session))]> (∅ : gmap string nat) !! "nobody") in H.
  rewrite lookup_insert_ne, lookup_empty in H by discriminate.
  by rewrite H.
Defined.

Lemma spec_mismatches_fresh_load req i p :
  spec_mismatches (load req (new_session i p))
  = detail_of_key <$> elements (messages_of req).
Proof.
  unfold spec_mismatches, messages_of; simpl. f_equal. f_equal.
  rewrite load_loop_dom, dom_empty_L. set_solver.
Qed.

(** X9.  A session that is created and loaded, and to which nothing has
    been sent, reports every message of the request once, however often
    the request repeats it. *)
Theorem untouched_session_reports_all ord1 ord2 free_port uuid req srv :
  range_order ord1 → range_order ord2 →
  let created := (createSession true free_port uuid srv).2 in
  let loaded := (loadInteractions uuid (Some req) created).2 in
  ∃ r, mismatches ord1 ord2 uuid loaded = (StatusOK, Some r) ∧
       Mismatches r ≡ₚ detail_of_key <$> elements (messages_of req).
Proof.
  intros H1 H2 created loaded. subst loaded created.
  unfold mismatches, loadInteractions, createSession; simpl.
  rewrite lookup_insert_eq; simpl. rewrite lookup_insert_eq; simpl.
  rewrite lookup_alter_eq, lookup_insert_eq; simpl.
  eexists. split; [reflexivity|].
  rewrite <- (spec_mismatches_fresh_load req uuid free_port).
  apply sessionMismatches_spec; [done..|]. apply load_keyed.
Qed.

Lemma untouched_session_witness :
  range_order same_order ∧
  ∃ r, mismatches same_order same_order "s1" ping_server = (StatusOK, Some r) ∧
       Mismatches r ≡ₚ detail_of_key <$> elements (messages_of [ping]).
Proof.
  split; [exact range_order_same|].
  exact (untouched_session_reports_all same_order same_order 50000 "s1" [ping]
           new_server range_order_same range_order_same).
Defined.

(** X10.  Create a session, load it, and let its listener handle one
    message that the request has: the listener answers with the response
    of the last interaction loaded for the message, and the report then
    has every other message of the request once and this one not. *)
Theorem served_message_leaves_report (TrimSpace : string → string)
    ord1 ord2 free_port uuid req data err i srv :
  range_order ord1 → range_order ord2 → read_ok err →
  last (filter (λ x, Message x = TrimSpace data) req) = Some i →
  let created := (createSession true free_port uuid srv).2 in
  let loaded := (loadInteractions uuid (Some req) created).2 in
  let ptr := fresh (dom (heap srv)) in
  let served := serve TrimSpace ptr data err loaded in
  served.1 = Some (Response i) ∧
  ∃ r, mismatches ord1 ord2 uuid served.2 = (StatusOK, Some r) ∧
       Mismatches r ≡ₚ detail_of_key <$>
                         elements (messages_of req ∖ {[TrimSpace data]}).
Proof.
  intros H1 H2 Hok Hlast created loaded ptr served.
  subst served loaded created ptr.
  unfold serve, loadInteractions, createSession; simpl.
  rewrite lookup_insert_eq; simpl.
  rewrite lookup_alter_eq, lookup_insert_eq; simpl.
  rewrite (handleRequest_read_ok TrimSpace data err _ Hok),
    matchRequest_after_load, Hlast. simpl.
  split; [done|].
  unfold mismatches; simpl. rewrite lookup_insert_eq; simpl.
  rewrite lookup_insert_eq.
  eexists. split; [reflexivity|].
  rewrite sessionMismatches_spec; [|done..|].
  - unfold spec_mismatches, messages_of; simpl. do 2 f_equiv.
    rewrite load_loop_dom, dom_empty_L. set_solver.
  - intros k v. apply load_keyed.
Qed.

Lemma served_message_witness :
  read_ok NoError ∧
  (serve ascii_TrimSpace 0%nat "PING" NoError ping_server).1 = Some "PONG".
Proof.
  split; [exact I|].
  exact (proj1 (served_message_leaves_report ascii_TrimSpace same_order same_order
                  50000 "s1" [ping] "PING" NoError ping new_server
                  range_order_same range_order_same I eq_refl)).
Defined.

(** X22.  A connection changes the session of its listener and nothing
    else: the registry, the listeners and every other session stay as
    they were, also the sessions that expect the same message.  A
    listener whose session is there always writes an answer. *)
Theorem serve_touches_one_session (TrimSpace : string → string) ptr data err srv :
  let out := serve TrimSpace ptr data err srv in
  sessions out.2 = sessions srv ∧
  tcpSessions out.2 = tcpSessions srv ∧
  (∀ q, q ≠ ptr → heap out.2 !! q = heap srv !! q) ∧
  heap out.2 !! ptr = (λ s, (handleRequest TrimSpace data err s).2) <$> heap srv !! ptr ∧
  out.1 = (λ s, (handleRequest TrimSpace data err s).1) <$> heap srv !! ptr.
Proof.
  intros out. subst out. unfold serve.
  destruct (heap srv !! ptr) as [s|] eqn:Hptr; simpl.
  - destruct (handleRequest TrimSpace data err s) as [response s'] eqn:Hh. simpl.
    repeat split; try done.
    + intros q Hq. by rewrite lookup_insert_ne.
    + by rewrite lookup_insert_eq.
  - by rewrite Hptr.
Qed.

(** X23.  Creating a session under an identifier that is registered
    re-points the identifier to the new, empty session.  The session that
    was registered stays where it is with its listener, but the admin API
    no longer reaches it: a load under the identifier leaves it alone. *)
Theorem createSession_same_id_replaces free_port uuid old srv :
  sessions srv !! uuid = Some old → is_Some (heap srv !! old) →
  let created := (createSession true free_port uuid srv).2 in
  let ptr := fresh (dom (heap srv)) in
  sessions created !! uuid = Some ptr ∧ ptr ≠ old ∧
  heap created !! ptr = Some (new_session uuid free_port) ∧
  heap created !! old = heap srv !! old ∧
  ∀ json, heap (loadInteractions uuid json created).2 !! old = heap srv !! old.
Proof.
  intros Hold Hlive created ptr. subst created ptr. simpl.
  assert (Hne : fresh (dom (heap srv)) ≠ old).
  { intros Heq. apply (is_fresh (dom (heap srv))). rewrite Heq.
    by apply elem_of_dom. }
  split; [apply lookup_insert_eq|]. split; [done|].
  split; [apply lookup_insert_eq|]. split; [by rewrite lookup_insert_ne|].
  intros json. unfold loadInteractions; simpl. rewrite lookup_insert_eq.
  destruct json as [req|]; simpl.
  - rewrite lookup_alter_ne by done. by rewrite lookup_insert_ne.
  - by rewrite lookup_insert_ne.
Qed.

Lemma createSession_same_id_witness :
  sessions ping_server !! "s1" = Some 0%nat ∧
  sessions (createSession true 50001 "s1" ping_server).2 !! "s1" = Some 1%nat.
Proof.
  assert (Hold : sessions ping_server !! "s1" = Some 0%nat) by reflexivity.
  assert (Hlive : is_Some (heap ping_server !! 0%nat)) by (eexists; reflexivity).
  split; [exact Hold|].
  exact (proj1 (createSession_same_id_replaces 50001 "s1" 0%nat ping_server
                  Hold Hlive)).
Defined.
End ServerFacts.

(** ** More on the native bindings *)
Section NativeFacts.
Import World.

Lemma C_int_range x : - 2 ^ 31 ≤ Native.C_int x < 2 ^ 31.
Proof.
  unfold Native.C_int.
  pose proof (Z.mod_pos_bound (x + 2 ^ 31) (2 ^ 32) eq_refl). lia.
Qed.

Lemma C_int_small x : - 2 ^ 31 ≤ x < 2 ^ 31 → Native.C_int x = x.
Proof.
  intros Hx. unfold Native.C_int. rewrite Z.mod_small; lia.
Qed.

Lemma C_int_wraps x k : Native.C_int (x + k * 2 ^ 32) = Native.C_int x.
Proof.
  unfold Native.C_int.
  replace (x + k * 2 ^ 32 + 2 ^ 31) with (x + 2 ^ 31 + k * 2 ^ 32) by lia.
  by rewrite Z.mod_add.
Qed.

(** X11.  The engine is given the port cut to 32 bits: a port that fits
    is passed as it is, and two ports that differ by a multiple of 2^32
    start the same mock server and get the same answer. *)
Theorem CreatePluginMockServer_port_32_bits eng port cmd h k :
  Native.CreatePluginMockServer eng (port + k * 2 ^ 32) cmd h
  = Native.CreatePluginMockServer eng port cmd h ∧
  (- 2 ^ 31 ≤ port < 2 ^ 31 →
   (Native.CreatePluginMockServer eng port cmd h).2
   = (h ++ [create_plugin_mock_server_call port cmd])%list) ∧
  - 2 ^ 31 ≤ (Native.CreatePluginMockServer eng port cmd h).1.1 < 2 ^ 31.
Proof.
  unfold Native.CreatePluginMockServer; simpl. split; [|split].
  - by rewrite C_int_wraps.
  - intros Hport. by rewrite C_int_small.
  - apply C_int_range.
Qed.

Lemma CreatePluginMockServer_port_witness :
  - 2 ^ 31 ≤ 50123 < 2 ^ 31 ∧
  (Native.CreatePluginMockServer V3.failing_engine 50123 "test" []).2
  = [create_plugin_mock_server_call 50123 "test"].
Proof.
  assert (Hport : - 2 ^ 31 ≤ 50123 < 2 ^ 31) by lia.
  split; [exact Hport|].
  exact (proj1 (proj2 (CreatePluginMockServer_port_32_bits
                         V3.failing_engine 50123 "test" [] 0)) Hport).
Defined.

Lemma unknown_start_error_head c :
  ∃ rest, Native.unknown_start_error c = String "a" (String "n" rest).
Proof. unfold Native.unknown_start_error. simpl. eauto. Qed.

(** X12.  [CreateMockServer] returns no error exactly when the engine's
    answer is positive, and then returns that answer as the port.  With
    an error the port returned is never positive: it is 0 for the answers
    -1 to -6 and the answer itself otherwise.  Each of the six errors is
    returned for its own answer only. *)
Theorem CreateMockServer_port_or_error
    (create_mock_server : string → string → Z → Z) pact address (tls : bool) :
  let code := Native.C_int (create_mock_server pact address (if tls then 1 else 0)) in
  let out := Native.CreateMockServer create_mock_server pact address tls in
  (out.2 = None ↔ 0 < code) ∧
  (0 < code → out = (code, None)) ∧
  ((code ≤ 0)%Z → (out.1 ≤ 0)%Z ∧ is_Some out.2) ∧
  ((- 6 ≤ code ≤ - 1)%Z → out.1 = 0) ∧
  (out.2 = Some Native.ErrInvalidMockServerConfig ↔ code = - 1) ∧
  (out.2 = Some Native.ErrInvalidPact ↔ code = - 2) ∧
  (out.2 = Some Native.ErrMockServerUnableToStart ↔ code = - 3) ∧
  (out.2 = Some Native.ErrMockServerPanic ↔ code = - 4) ∧
  (out.2 = Some Native.ErrInvalidAddress ↔ code = - 5) ∧
  (out.2 = Some Native.ErrMockServerTLSConfiguration ↔ code = - 6).
Proof.
  intros code out.
  assert (Hout : out = match code with
                       | Z.neg 1 => (0, Some Native.ErrInvalidMockServerConfig)
                       | Z.neg 2 => (0, Some Native.ErrInvalidPact)
                       | Z.neg 3 => (0, Some Native.ErrMockServerUnableToStart)
                       | Z.neg 4 => (0, Some Native.ErrMockServerPanic)
                       | Z.neg 5 => (0, Some Native.ErrInvalidAddress)
                       | Z.neg 6 => (0, Some Native.ErrMockServerTLSConfiguration)
                       | _ => if (0 <? code)%Z then (code, None)
                              else (code, Some (Native.unknown_start_error code))
                       end).
  { subst out code. unfold Native.CreateMockServer. by destruct tls. }
  clearbody out code. subst out.
  destruct (unknown_start_error_head code) as [rest Hrest].
  destruct code as [|c|c]; simpl;
    [| |destruct c as [[[c|c|]|[c|c|]|]|[[c|c|]|[c|c|]|]|]; simpl];
    rewrite ?Hrest;
    repeat split; intros; try discriminate; try lia; try done; eauto.
Qed.

(** X13.  [WritePactFile] calls the engine once and returns no error
    exactly when the engine answers 0; the answers 1, 2 and 3 give the
    panic, the write and the not-found error. *)
Theorem WritePactFile_error_iff_nonzero eng port dir h :
  let code := Native.C_int (Native.write_pact_file eng (Native.C_int port) dir) in
  let out := Native.WritePactFile eng port dir h in
  out.2 = (h ++ [write_pact_file_call (Native.C_int port) dir])%list ∧
  (out.1 = None ↔ code = 0) ∧
  (out.1 = Some Native.ErrMockServerPanic ↔ code = 1) ∧
  (out.1 = Some Native.ErrUnableToWritePactFile ↔ code = 2) ∧
  (out.1 = Some Native.ErrMockServerNotfound ↔ code = 3).
Proof.
  intros code out. subst out. unfold Native.WritePactFile. fold code.
  clearbody code. simpl. split; [done|].
  destruct code as [|c|c]; simpl;
    [|destruct c as [[c|c|]|[c|c|]|]; simpl|];
    repeat split; intros; try discriminate; try lia; try done.
Qed.

(** X14.  [VerifyPlugin] asks the engine for the verdict and then for the
    mismatches.  It returns [true] only when the verdict is 1 and the
    mismatch text parses, and returns the parsed mismatches then; when the
    text does not parse it returns [false] and no mismatch, whatever the
    verdict. *)
Theorem VerifyPlugin_true_needs_parse eng port h :
  let text := Native.plugin_mock_server_mismatches eng (Native.C_int port) in
  let out := Native.VerifyPlugin eng port h in
  out.2 = (h ++ [plugin_mock_server_matched_call (Native.C_int port);
                 plugin_mock_server_mismatches_call (Native.C_int port)])%list ∧
  (out.1.1 = true →
     Native.C_int (Native.plugin_mock_server_matched eng (Native.C_int port)) = 1 ∧
     Native.json_Unmarshal eng text = inl out.1.2) ∧
  (∀ e, Native.json_Unmarshal eng text = inr e →
        out.1 = (false, {| Native.Mismatches := [] |})) ∧
  (∀ parsed, Native.json_Unmarshal eng text = inl parsed → out.1.2 = parsed).
Proof.
  intros text out. subst out text.
  unfold Native.VerifyPlugin, Native.PluginMockServerMismatchedRequests. simpl.
  destruct (Native.json_Unmarshal eng _) as [parsed|e]; simpl.
  - split; [by rewrite <- app_assoc|]. split; [|split]; try done.
    + intros Hone%Z.eqb_eq. done.
    + by intros ? [= <-].
  - split; [by rewrite <- app_assoc|]. split; [done|]. split; [|done].
    by intros.
Qed.
End NativeFacts.

(** ** More on the plugin provider *)
Section ProviderRuns.
Import World V3.

Implicit Types (env : Env) (p : PluginProvider) (h : list call) (pf : Platform).

Ltac run env cb p :=
  unfold ExecuteTest, poll, Native.CreatePluginMockServer,
    Native.AddPluginInteractions, Native.VerifyPlugin,
    Native.PluginMockServerMismatchedRequests, WritePact, Return,
    Native.CleanupPluginMockServer, cleanInteractions in *;
  simpl in *.

Lemma home_platform_laws : library_laws home_platform.
Proof. apply reference_laws. reflexivity. Qed.

(** X15.  A configuration that was validated passes validation again, in
    any working directory and whatever port is free then, without a
    change. *)
Lemma validateConfig_idempotent_witness :
  library_laws home_platform ∧
  validateConfig percent_platform
    (validateConfig home_platform {| config := empty_config; Interactions := [] |}).2
  = (None, {| config := ready_config; Interactions := [] |}).
Proof.
  split; [exact home_platform_laws|].
  exact (validateConfig_idempotent home_platform percent_platform
           {| config := empty_config; Interactions := [] |}
           home_platform_laws eq_refl).
Defined.

(** X16.  In a working directory without a percent sign that [Join]
    extends by a slash and the name, empty directories default to
    [<cwd>/logs] and [<cwd>/pacts]. *)
Lemma validateConfig_cwd_defaults_witness :
  library_laws home_platform ∧
  LogDir (config (validateConfig home_platform
                    {| config := empty_config; Interactions := [] |}).2)
  = "/home/pact/logs".
Proof.
  split; [exact home_platform_laws|].
  exact (proj1 (validateConfig_cwd_defaults home_platform
                  {| config := empty_config; Interactions := [] |}
                  home_platform_laws eq_refl eq_refl eq_refl) eq_refl).
Defined.

(** X17.  [NewPluginProvider] returns a provider or an error, never both
    and never neither.  The provider has no interaction, a host, a log
    and a pact directory that are not empty and a positive port, and the
    names of the configuration it was given.  The error is the one for a
    missing free port, and is returned only when the configuration has no
    port and none could be obtained. *)
Theorem NewPluginProvider_provider_or_error pf cfg :
  library_laws pf →
  match NewPluginProvider pf cfg with
  | (Some p, None) =>
      Interactions p = [] ∧
      Host (config p) ≠ "" ∧ LogDir (config p) ≠ "" ∧ PactDir (config p) ≠ "" ∧
      0 < Port (config p) ∧
      Consumer (config p) = Consumer cfg ∧ Provider (config p) = Provider cfg ∧
      ((Port cfg ≤ 0)%Z → (GetFreePort pf).2 = None)
  | (None, Some e) =>
      e = "error: unable to find free port, mock server will fail to start" ∧
      (Port cfg ≤ 0)%Z ∧ is_Some (GetFreePort pf).2
  | _ => False
  end.
Proof.
  intros Hlaws. unfold NewPluginProvider.
  set (p0 := {| config := cfg; Interactions := [] |}).
  pose proof (validateConfig_error pf p0) as Herr.
  destruct (validateConfig_fields pf p0)
    as (Hhost & Hlog & Hpact & Hport & Hcons & Hprov & Hints).
  destruct (validateConfig pf p0) as [err p1]. simpl in *.
  destruct (Port cfg <=? 0)%Z eqn:Hle.
  - apply Z.leb_le in Hle.
    pose proof (GetFreePort_positive pf Hlaws) as Hpos.
    destruct (GetFreePort pf) as [fp [e|]]; simpl in *; subst err.
    + split; [done|]. split; [done|]. eauto.
    + repeat split; try done.
      * rewrite Hhost. destruct (Host cfg); simpl; discriminate.
      * rewrite Hlog. destruct (LogDir cfg); simpl; [|discriminate].
        apply (Sprintf_nonempty pf Hlaws), (Join_nonempty pf Hlaws). discriminate.
      * rewrite Hpact. destruct (PactDir cfg); simpl; [|discriminate].
        apply (Sprintf_nonempty pf Hlaws), (Join_nonempty pf Hlaws). discriminate.
      * rewrite Hport. by apply Hpos.
  - apply Z.leb_gt in Hle. subst err. repeat split; try done; try lia.
    + rewrite Hhost. destruct (Host cfg); simpl; discriminate.
    + rewrite Hlog. destruct (LogDir cfg); simpl; [|discriminate].
      apply (Sprintf_nonempty pf Hlaws), (Join_nonempty pf Hlaws). discriminate.
    + rewrite Hpact. destruct (PactDir cfg); simpl; [|discriminate].
      apply (Sprintf_nonempty pf Hlaws), (Join_nonempty pf Hlaws). discriminate.
Qed.

Lemma NewPluginProvider_witness :
  library_laws home_platform ∧
  match NewPluginProvider home_platform empty_config with
  | (Some p, None) => Interactions p = [] ∧ 0 < Port (config p)
  | _ => False
  end.
Proof.
  split; [exact home_platform_laws|].
  pose proof (NewPluginProvider_provider_or_error home_platform empty_config
                home_platform_laws) as H.
  revert H. vm_compute. intros (H1 & _ & _ & _ & H5 & _).
  split; [exact H1 | exact H5].
Defined.

(** X18.  When the plugin does not come up, or the interactions cannot be
    marshalled, [ExecuteTest] returns that very error and leaves the
    provider as it was; it has started the engine, polled, and cleaned the
    engine up, and has called nothing else: no interaction was sent and
    the test function was not run. *)
Theorem ExecuteTest_aborts_before_load env (cb : test_func) p h e :
  let port := Port (config p) in
  let aborted :=
    (h ++ [create_plugin_mock_server_call (Native.C_int port) "test";
           waitForPort_call port "tcp" "localhost" ten_seconds (timeout_message port);
           cleanup_plugin_mock_server_call (Native.C_int port)])%list in
  (poll env port = Some e → ExecuteTest env cb p h = (Some e, p, aborted)) ∧
  (poll env port = None →
   Native.json_Marshal (engine env) (Interactions p) = inr e →
   ExecuteTest env cb p h = (Some e, p, aborted)).
Proof.
  intros port aborted. subst aborted port. split.
  - intros Hpoll. run env cb p. rewrite Hpoll. simpl.
    by rewrite <- !app_assoc.
  - intros Hpoll Hmarshal. run env cb p. rewrite Hpoll, Hmarshal. simpl.
    by rewrite <- !app_assoc.
Qed.

Lemma ExecuteTest_aborts_witness :
  poll timeout_env 50123 = Some (timeout_message 50123) ∧
  ExecuteTest timeout_env passing_test pending_provider []
  = (Some (timeout_message 50123), pending_provider,
     [create_plugin_mock_server_call 50123 "test";
      waitForPort_call 50123 "tcp" "localhost" ten_seconds (timeout_message 50123);
      cleanup_plugin_mock_server_call 50123]).
Proof.
  split; [reflexivity|].
  exact (proj1 (ExecuteTest_aborts_before_load timeout_env passing_test
                  pending_provider [] (timeout_message 50123)) eq_refl).
Defined.

(** X19.  When the test function returns an error, [ExecuteTest] returns
    that very error without asking the engine for a verdict: after the
    test function only the reset and then the engine's clean-up run, and
    the interactions are gone, those the test function added too. *)
Theorem ExecuteTest_test_error_skips_verification env (cb : test_func) p h b e left :
  poll env (Port (config p)) = None →
  Native.json_Marshal (engine env) (Interactions p) = inl b →
  cb (test_config env p) (Interactions p) = (Some e, left) →
  ExecuteTest env cb p h
  = (Some e, {| config := config p; Interactions := [] |},
     (h ++ calls_until_test env p b
        ++ [cleanInteractions_call;
            cleanup_plugin_mock_server_call (Native.C_int (Port (config p)))])%list).
Proof.
  intros Hpoll Hmarshal Hcb. unfold test_config, calls_until_test in *.
  run env cb p. rewrite Hpoll, Hmarshal. simpl. rewrite Hcb. simpl.
  by rewrite <- !app_assoc.
Qed.

(** X20.  When the test function passes, [ExecuteTest] asks the engine
    for the verdict and then for the mismatches.  On a positive verdict
    it calls [WritePact] and returns no error; otherwise it returns the
    validation error without calling [WritePact].  Either way the reset
    and then the engine's clean-up are the last two calls, and the
    provider is left with its configuration and no interaction. *)
Theorem ExecuteTest_verified_run env (cb : test_func) p h b left :
  poll env (Port (config p)) = None →
  Native.json_Marshal (engine env) (Interactions p) = inl b →
  cb (test_config env p) (Interactions p) = (None, left) →
  let port := Native.C_int (Port (config p)) in
  let verdict := (Native.VerifyPlugin (engine env) (Port (config p)) []).1 in
  ExecuteTest env cb p h
  = (if verdict.1 then None else Some (validation_failed false verdict.2),
     {| config := config p; Interactions := [] |},
     (h ++ calls_until_test env p b
        ++ [plugin_mock_server_matched_call port;
            plugin_mock_server_mismatches_call port]
        ++ (if verdict.1 then [WritePact_call] else [])
        ++ [cleanInteractions_call; cleanup_plugin_mock_server_call port])%list).
Proof.
  intros Hpoll Hmarshal Hcb port verdict. subst verdict port.
  unfold test_config, calls_until_test in *.
  run env cb p. rewrite Hpoll, Hmarshal. simpl. rewrite Hcb. simpl.
  destruct (Native.json_Unmarshal (engine env) _) as [parsed|err]; simpl.
  - destruct (Native.C_int _ =? 1)%Z; simpl; by rewrite <- !app_assoc.
  - by rewrite <- !app_assoc.
Qed.

Lemma ExecuteTest_test_error_witness :
  poll ready_env 50123 = None ∧
  (ExecuteTest ready_env failing_test pending_provider []).1
  = (Some "unexpected response", {| config := ready_config; Interactions := [] |}).
Proof.
  split; [reflexivity|].
  exact (f_equal fst (ExecuteTest_test_error_skips_verification
                        ready_env failing_test pending_provider []
                        "{interactions}" "unexpected response" [Any 0; Any 1]
                        eq_refl eq_refl eq_refl)).
Defined.

Lemma ExecuteTest_verified_run_witness :
  poll ready_env 50123 = None ∧
  (ExecuteTest ready_env passing_test pending_provider []).2
  = [create_plugin_mock_server_call 50123 "test";
     waitForPort_call 50123 "tcp" "localhost" ten_seconds (timeout_message 50123);
     add_plugin_interaction_call 50123 "{interactions}";
     integrationTest_call 50200 "127.0.0.1";
     plugin_mock_server_matched_call 50123;
     plugin_mock_server_mismatches_call 50123;
     WritePact_call; cleanInteractions_call;
     cleanup_plugin_mock_server_call 50123].
Proof.
  split; [reflexivity|].
  exact (f_equal snd (ExecuteTest_verified_run
                        ready_env passing_test pending_provider []
                        "{interactions}" [Any 0] eq_refl eq_refl eq_refl)).
Defined.

Lemma AddInteraction_fold l p :
  fold_left (λ q i, AddInteraction i q) l p
  = {| config := config p; Interactions := (Interactions p ++ l)%list |}.
Proof.
  revert p. induction l as [|i l IH]; intros p; simpl.
  - rewrite app_nil_r. by destruct p.
  - rewrite IH. simpl. by rewrite <- app_assoc.
Qed.

(** X21.  Interactions added one after the other are kept in the order
    added, behind those already pending, and the configuration is not
    touched.  After a run that got as far as sending them, the provider
    starts again from none: the next run is given exactly the interactions
    added since. *)
Theorem AddInteraction_accumulates_until_run env (cb : test_func) p h l :
  fold_left (λ q i, AddInteraction i q) l p
  = {| config := config p; Interactions := (Interactions p ++ l)%list |} ∧
  (poll env (Port (config p)) = None →
   (∃ b, Native.json_Marshal (engine env) (Interactions p) = inl b) →
   fold_left (λ q i, AddInteraction i q) l (ExecuteTest env cb p h).1.2
   = {| config := config p; Interactions := l |}).
Proof.
  split; [apply AddInteraction_fold|].
  intros Hpoll Hmarshal.
  destruct (ExecuteTest_cleanup_and_reset env cb p h) as (_ & Hconfig & Hreset).
  destruct (Hreset Hpoll Hmarshal) as [_ Hnone].
  by rewrite AddInteraction_fold, Hconfig, Hnone.
Qed.

Lemma AddInteraction_accumulates_witness :
  poll ready_env 50123 = None ∧
  fold_left (λ q i, AddInteraction i q) [Any 7; Any 8]
            (ExecuteTest ready_env passing_test pending_provider []).1.2
  = {| config := ready_config; Interactions := [Any 7; Any 8] |}.
Proof.
  split; [reflexivity|].
  exact (proj2 (AddInteraction_accumulates_until_run
                  ready_env passing_test pending_provider [] [Any 7; Any 8])
           eq_refl (ex_intro _ "{interactions}" eq_refl)).
Defined.
End ProviderRuns.
